(** * A rate-limiting reverse-proxy shim (main.go)

  The program keeps one token bucket per [remember_token] cookie value in
  a mutex-guarded registry, flushes the registry on a timer, and wraps a
  reverse proxy with a middleware that inspects the cookie and the JSON
  field [max_age] of the body before it forwards a request.

  The development embeds [RateLimiters], [NewRateLimiters], the body of
  [Flusher]'s ticker case, [GetLimiter] and [LimitMiddleware] from
  main.go.  The packages main.go imports (golang.org/x/time/rate,
  encoding/json, io, net/http) are not part of the repository; the parts
  of them the handler runs are modelled in modules of their own. *)

From Stdlib Require Import ZArith Lia List Ascii String Bool Sorted.
From stdpp Require Import gmap strings list fin_maps.

Local Open Scope Z_scope.

(** ** Bytes and strings

  A Go [byte] is an 8-bit [ascii]; a Go [string] is a [string]; a
  [[]byte] is a [list ascii]. *)

Abbreviation byte := ascii.

Definition bytes_of (s : string) : list byte := list_ascii_of_string s.

Definition code (c : byte) : Z := Z.of_nat (nat_of_ascii c).

Definition chr (n : Z) : byte := ascii_of_nat (Z.to_nat n).

Definition LF : string := String "010"%char EmptyString.

Definition DQ : string := String "034"%char EmptyString.

(** ** package time *)

Module time.

(** A [time.Duration] is a number of nanoseconds. *)
Definition Nanosecond : Z := 1.
Definition Second : Z := 1000000000 * Nanosecond.
Definition Minute : Z := 60 * Second.

End time.

(** ** package golang.org/x/time/rate *)

Module xrate.

(** Modelled from the spec: the token bucket of golang.org/x/time/rate,
    an imported package whose source is not in the repository.  The spec
    (4.1) gives its state as (refill rate, burst capacity, current token
    count, last-refill timestamp), its refill as
    [tokens = min(capacity, tokens + elapsed_seconds * rate)] and its
    decision as: true and one token consumed if at least one token is
    available after the refill, false with no mutation beyond timestamp
    bookkeeping otherwise.

    The package holds the rate and the token count in float64.  Here the
    rate [rate.Every(d)] is held as the interval [d] in nanoseconds
    between two tokens, and the token count as credit in nanoseconds,
    [d] nanoseconds of credit being one token, so that
    [elapsed * rate] is exact. A time is a number of nanoseconds since
    the zero [time.Time]. *)
Record Limiter := {
  limit : Z;    (* nanoseconds per token *)
  burst : Z;    (* capacity, in tokens *)
  tokens : Z;   (* credit, in nanoseconds; [limit] of them is one token *)
  last : Z      (* time of the last token update *)
}.

(** Modelled from the spec: [rate.Every(interval)], the limit of one
    token per [interval]. *)
Definition Every (interval : Z) : Z := interval.

(** Modelled from the spec: [rate.NewLimiter(r, b)].  A new limiter holds
    its full burst ("a full fresh quota") and the zero time. *)
Definition NewLimiter (r : Z) (b : Z) : Limiter :=
  {| limit := r; burst := b; tokens := b * r; last := 0 |}.

(** Modelled from the spec: the refill,
    [min(capacity, tokens + elapsed * rate)], at time [t]; a clock that
    ran backwards counts as no time elapsed. *)
Definition advance (lim : Limiter) (t : Z) : Z :=
  let last := if t <? last lim then t else last lim in
  let elapsed := t - last in
  let tokens := tokens lim + elapsed in
  let burst := burst lim * limit lim in
  if tokens >? burst then burst else tokens.

(** Modelled from the spec: the reservation of [n] tokens at time [t]
    that may wait at most [maxFutureReserve].  On success the tokens are
    taken and [last] becomes [t]; on failure only the timestamp is
    kept in order. *)
Definition reserveN (lim : Limiter) (t : Z) (n : Z) (maxFutureReserve : Z)
  : bool * Limiter :=
  let tokens := advance lim t - n * limit lim in
  let waitDuration := if tokens <? 0 then - tokens else 0 in
  let ok := (n <=? burst lim) && (waitDuration <=? maxFutureReserve) in
  if ok
  then (true, {| limit := limit lim; burst := burst lim;
                 tokens := tokens; last := t |})
  else (false, {| limit := limit lim; burst := burst lim;
                  tokens := xrate.tokens lim;
                  last := if t <? last lim then t else last lim |}).

(** Modelled from the spec: [TryAcquire], that is [lim.Allow()] run at
    time [now]: [AllowN(now, 1)], a reservation of one token that may not
    wait. *)
Definition Allow (lim : Limiter) (now : Z) : bool * Limiter :=
  reserveN lim now 1 0.

(** The results of a sequence of [Allow] calls at the times [ts], each
    paired with its time. *)
Fixpoint run (lim : Limiter) (ts : list Z) : list (Z * bool) :=
  match ts with
  | [] => []
  | t :: ts' => let '(ok, lim') := Allow lim t in (t, ok) :: run lim' ts'
  end.

(** The number of successful acquisitions of a trace whose time lies in
    the closed window from [lo] to [hi]. *)
Fixpoint successes_in (lo hi : Z) (tr : list (Z * bool)) : Z :=
  match tr with
  | [] => 0
  | (t, ok) :: tr' =>
      (if ok && (lo <=? t) && (t <=? hi) then 1 else 0) + successes_in lo hi tr'
  end.

End xrate.

(** ** The built-in interface [error]

    The error values the handler can meet, with the text their [Error]
    method returns. *)

Inductive error :=
| io_EOF
| io_ErrUnexpectedEOF
| SyntaxError (msg : string) (Offset : Z)
| UnmarshalTypeError (Value : string) (Type_ : string) (Struct : string) (Field : string).

Definition Error (e : error) : string :=
  match e with
  | io_EOF => "EOF"
  | io_ErrUnexpectedEOF => "unexpected EOF"
  | SyntaxError msg _ => msg
  | UnmarshalTypeError v t s f =>
      if (String.eqb s EmptyString && String.eqb f EmptyString)%bool
      then "json: cannot unmarshal " +:+ v +:+ " into Go value of type " +:+ t
      else "json: cannot unmarshal " +:+ v +:+ " into Go struct field "
           +:+ s +:+ "." +:+ f +:+ " of type " +:+ t
  end.

(** ** package encoding/json

    The package belongs to the Go standard library and is not part of the
    repository; main.go leaves the reading and the decoding of the body to
    it.  Of this step the spec says that [max_age] is an optional integer
    field of default 0 and that a body that does not parse is answered
    with the text of the parse error.  What follows is a model of the
    part of the package that
    [json.NewDecoder(r.Body).Decode(&queryPayload)] runs, after the
    package: the scanner (scanner.go), the buffered reading of one value
    from the stream (stream.go) and the decoding of that value into the
    handler's [struct { MaxAge int64 `json:...` }] (decode.go).  The
    properties of the handler below take the result of [Decode] as a
    premise; the model itself decides the examples and what is read of a
    body. *)

Module json.

Definition eqc (c x : byte) : bool := Ascii.eqb c x.

Definition between (lo c hi : byte) : bool :=
  (code lo <=? code c) && (code c <=? code hi).

Definition isDigit (c : byte) : bool := between "0" c "9".

Definition isHex (c : byte) : bool :=
  between "0" c "9" || between "a" c "f" || between "A" c "F".

(** *** strconv.Quote on one byte, for the scanner's messages *)

Definition lowerhex (n : Z) : byte :=
  if n <? 10 then chr (code "0" + n) else chr (code "a" + (n - 10)).

Definition hex2 (n : Z) : string :=
  String (lowerhex (n / 16)) (String (lowerhex (n mod 16)) EmptyString).

(** The text of [strconv.Quote(string(c))] between its quotes: [c] is
    taken as the code point of that number. *)
Definition quoted (c : byte) : string :=
  let n := code c in
  if eqc c "\" then "\\"
  else if (32 <=? n) && (n <=? 126) then String c EmptyString
  else if (161 <=? n) && (n <=? 255) && negb (n =? 173)
  then String (chr (192 + n / 64)) (String (chr (128 + n mod 64)) EmptyString)
  else if n =? 7 then "\a"
  else if n =? 8 then "\b"
  else if n =? 12 then "\f"
  else if n =? 10 then "\n"
  else if n =? 13 then "\r"
  else if n =? 9 then "\t"
  else if n =? 11 then "\v"
  else if (n <? 32) || (n =? 127) then "\x" +:+ hex2 n
  else "\u00" +:+ hex2 n.

Definition quoteChar (c : byte) : string :=
  if eqc c "'" then "'\''"
  else if eqc c "034" then "'" +:+ DQ +:+ "'"
  else "'" +:+ quoted c +:+ "'".

(** *** scanner.go *)

Inductive opcode :=
| scanContinue | scanBeginLiteral | scanBeginObject | scanObjectKey
| scanObjectValue | scanEndObject | scanBeginArray | scanArrayValue
| scanEndArray | scanSkipSpace
| scanEnd | scanError.

Definition opcode_eqb (a b : opcode) : bool :=
  match a, b with
  | scanContinue, scanContinue | scanBeginLiteral, scanBeginLiteral
  | scanBeginObject, scanBeginObject | scanObjectKey, scanObjectKey
  | scanObjectValue, scanObjectValue | scanEndObject, scanEndObject
  | scanBeginArray, scanBeginArray | scanArrayValue, scanArrayValue
  | scanEndArray, scanEndArray | scanSkipSpace, scanSkipSpace
  | scanEnd, scanEnd | scanError, scanError => true
  | _, _ => false
  end.

Inductive parse := parseObjectKey | parseObjectValue | parseArrayValue.

(** The scanner's [step] field holds one of the state functions; a tag
    names each of them. *)
Inductive stepfn :=
| step_BeginValueOrEmpty | step_BeginValue | step_BeginStringOrEmpty
| step_BeginString | step_EndValue | step_EndTop
| step_InString | step_InStringEsc | step_InStringEscU | step_InStringEscU1
| step_InStringEscU12 | step_InStringEscU123
| step_Neg | step_1 | step_0 | step_Dot | step_Dot0 | step_E | step_ESign | step_E0
| step_T | step_Tr | step_Tru | step_F | step_Fa | step_Fal | step_Fals
| step_N | step_Nu | step_Nul
| step_Error.

(** [parseState] is a stack; its top is the head of the list. *)
Record scanner := {
  step : stepfn;
  endTop : bool;
  parseState : list parse;
  err : option error;
  bytes : Z
}.

Definition maxNestingDepth : Z := 10000.

Definition set_step (f : stepfn) (s : scanner) : scanner :=
  {| step := f; endTop := endTop s; parseState := parseState s;
     err := err s; bytes := bytes s |}.

Definition set_parseState (ps : list parse) (s : scanner) : scanner :=
  {| step := step s; endTop := endTop s; parseState := ps;
     err := err s; bytes := bytes s |}.

Definition set_endTop (b : bool) (s : scanner) : scanner :=
  {| step := step s; endTop := b; parseState := parseState s;
     err := err s; bytes := bytes s |}.

Definition set_err (e : option error) (s : scanner) : scanner :=
  {| step := step s; endTop := endTop s; parseState := parseState s;
     err := e; bytes := bytes s |}.

Definition set_bytes (n : Z) (s : scanner) : scanner :=
  {| step := step s; endTop := endTop s; parseState := parseState s;
     err := err s; bytes := n |}.

(** [s.reset()] *)
Definition reset (s : scanner) : scanner :=
  {| step := step_BeginValue; endTop := false; parseState := [];
     err := None; bytes := bytes s |}.

Definition newScanner : scanner :=
  {| step := step_BeginValue; endTop := false; parseState := [];
     err := None; bytes := 0 |}.

(** [s.error(c, context)] *)
Definition scan_error (s : scanner) (c : byte) (context : string) : opcode * scanner :=
  (scanError,
   set_err (Some (SyntaxError ("invalid character " +:+ quoteChar c +:+ " " +:+ context)
                              (bytes s)))
           (set_step step_Error s)).

Definition pushParseState (s : scanner) (c : byte) (newParseState : parse)
    (successState : opcode) : opcode * scanner :=
  let s := set_parseState (newParseState :: parseState s) s in
  if Z.of_nat (length (parseState s)) <=? maxNestingDepth
  then (successState, s)
  else scan_error s c "exceeded max depth".

Definition popParseState (s : scanner) : scanner :=
  let ps := tail (parseState s) in
  let s := set_parseState ps s in
  match ps with
  | [] => set_endTop true (set_step step_EndTop s)
  | _ => set_step step_EndValue s
  end.

Definition isSpace (c : byte) : bool :=
  (code c <=? code " ") && (eqc c " " || eqc c "009" || eqc c "013" || eqc c "010").

Definition stateEndTop (s : scanner) (c : byte) : opcode * scanner :=
  if negb (isSpace c)
  then (scanEnd, snd (scan_error s c "after top-level value"))
  else (scanEnd, s).

Definition stateEndValue (s : scanner) (c : byte) : opcode * scanner :=
  match parseState s with
  | [] => stateEndTop (set_endTop true (set_step step_EndTop s)) c
  | ps :: below =>
      if isSpace c then (scanSkipSpace, set_step step_EndValue s)
      else match ps with
           | parseObjectKey =>
               if eqc c ":"
               then (scanObjectKey,
                     set_step step_BeginValue (set_parseState (parseObjectValue :: below) s))
               else scan_error s c "after object key"
           | parseObjectValue =>
               if eqc c ","
               then (scanObjectValue,
                     set_step step_BeginString (set_parseState (parseObjectKey :: below) s))
               else if eqc c "}" then (scanEndObject, popParseState s)
               else scan_error s c "after object key:value pair"
           | parseArrayValue =>
               if eqc c ","
               then (scanArrayValue, set_step step_BeginValue s)
               else if eqc c "]" then (scanEndArray, popParseState s)
               else scan_error s c "after array element"
           end
  end.

Definition stateBeginValue (s : scanner) (c : byte) : opcode * scanner :=
  if isSpace c then (scanSkipSpace, s)
  else if eqc c "{"
  then pushParseState (set_step step_BeginStringOrEmpty s) c parseObjectKey scanBeginObject
  else if eqc c "["
  then pushParseState (set_step step_BeginValueOrEmpty s) c parseArrayValue scanBeginArray
  else if eqc c "034" then (scanBeginLiteral, set_step step_InString s)
  else if eqc c "-" then (scanBeginLiteral, set_step step_Neg s)
  else if eqc c "0" then (scanBeginLiteral, set_step step_0 s)
  else if eqc c "t" then (scanBeginLiteral, set_step step_T s)
  else if eqc c "f" then (scanBeginLiteral, set_step step_F s)
  else if eqc c "n" then (scanBeginLiteral, set_step step_N s)
  else if between "1" c "9" then (scanBeginLiteral, set_step step_1 s)
  else scan_error s c "looking for beginning of value".

Definition stateBeginValueOrEmpty (s : scanner) (c : byte) : opcode * scanner :=
  if isSpace c then (scanSkipSpace, s)
  else if eqc c "]" then stateEndValue s c
  else stateBeginValue s c.

Definition stateBeginString (s : scanner) (c : byte) : opcode * scanner :=
  if isSpace c then (scanSkipSpace, s)
  else if eqc c "034" then (scanBeginLiteral, set_step step_InString s)
  else scan_error s c "looking for beginning of object key string".

Definition stateBeginStringOrEmpty (s : scanner) (c : byte) : opcode * scanner :=
  if isSpace c then (scanSkipSpace, s)
  else if eqc c "}"
  then stateEndValue (set_parseState (parseObjectValue :: tail (parseState s)) s) c
  else stateBeginString s c.

Definition stateInString (s : scanner) (c : byte) : opcode * scanner :=
  if eqc c "034" then (scanContinue, set_step step_EndValue s)
  else if eqc c "\" then (scanContinue, set_step step_InStringEsc s)
  else if code c <? 32 then scan_error s c "in string literal"
  else (scanContinue, s).

Definition stateInStringEsc (s : scanner) (c : byte) : opcode * scanner :=
  if eqc c "b" || eqc c "f" || eqc c "n" || eqc c "r" || eqc c "t"
     || eqc c "\" || eqc c "/" || eqc c "034"
  then (scanContinue, set_step step_InString s)
  else if eqc c "u" then (scanContinue, set_step step_InStringEscU s)
  else scan_error s c "in string escape code".

Definition stateInStringEscU_ (next : stepfn) (s : scanner) (c : byte) : opcode * scanner :=
  if isHex c then (scanContinue, set_step next s)
  else scan_error s c "in \u hexadecimal character escape".

Definition state0 (s : scanner) (c : byte) : opcode * scanner :=
  if eqc c "." then (scanContinue, set_step step_Dot s)
  else if eqc c "e" || eqc c "E" then (scanContinue, set_step step_E s)
  else stateEndValue s c.

Definition state1 (s : scanner) (c : byte) : opcode * scanner :=
  if isDigit c then (scanContinue, set_step step_1 s)
  else state0 s c.

Definition stateNeg (s : scanner) (c : byte) : opcode * scanner :=
  if eqc c "0" then (scanContinue, set_step step_0 s)
  else if between "1" c "9" then (scanContinue, set_step step_1 s)
  else scan_error s c "in numeric literal".

Definition stateDot (s : scanner) (c : byte) : opcode * scanner :=
  if isDigit c then (scanContinue, set_step step_Dot0 s)
  else scan_error s c "after decimal point in numeric literal".

Definition stateDot0 (s : scanner) (c : byte) : opcode * scanner :=
  if isDigit c then (scanContinue, s)
  else if eqc c "e" || eqc c "E" then (scanContinue, set_step step_E s)
  else stateEndValue s c.

Definition stateESign (s : scanner) (c : byte) : opcode * scanner :=
  if isDigit c then (scanContinue, set_step step_E0 s)
  else scan_error s c "in exponent of numeric literal".

Definition stateE (s : scanner) (c : byte) : opcode * scanner :=
  if eqc c "+" || eqc c "-" then (scanContinue, set_step step_ESign s)
  else stateESign s c.

Definition stateE0 (s : scanner) (c : byte) : opcode * scanner :=
  if isDigit c then (scanContinue, s)
  else stateEndValue s c.

(** The states inside [true], [false] and [null]: the next byte must be
    [want]. *)
Definition stateWord (want : byte) (next : stepfn) (context : string)
    (s : scanner) (c : byte) : opcode * scanner :=
  if eqc c want then (scanContinue, set_step next s)
  else scan_error s c context.

(** [s.step(s, c)] *)
Definition scan_step (s : scanner) (c : byte) : opcode * scanner :=
  match step s with
  | step_BeginValueOrEmpty => stateBeginValueOrEmpty s c
  | step_BeginValue => stateBeginValue s c
  | step_BeginStringOrEmpty => stateBeginStringOrEmpty s c
  | step_BeginString => stateBeginString s c
  | step_EndValue => stateEndValue s c
  | step_EndTop => stateEndTop s c
  | step_InString => stateInString s c
  | step_InStringEsc => stateInStringEsc s c
  | step_InStringEscU => stateInStringEscU_ step_InStringEscU1 s c
  | step_InStringEscU1 => stateInStringEscU_ step_InStringEscU12 s c
  | step_InStringEscU12 => stateInStringEscU_ step_InStringEscU123 s c
  | step_InStringEscU123 => stateInStringEscU_ step_InString s c
  | step_Neg => stateNeg s c
  | step_1 => state1 s c
  | step_0 => state0 s c
  | step_Dot => stateDot s c
  | step_Dot0 => stateDot0 s c
  | step_E => stateE s c
  | step_ESign => stateESign s c
  | step_E0 => stateE0 s c
  | step_T => stateWord "r" step_Tr "in literal true (expecting 'r')" s c
  | step_Tr => stateWord "u" step_Tru "in literal true (expecting 'u')" s c
  | step_Tru => stateWord "e" step_EndValue "in literal true (expecting 'e')" s c
  | step_F => stateWord "a" step_Fa "in literal false (expecting 'a')" s c
  | step_Fa => stateWord "l" step_Fal "in literal false (expecting 'l')" s c
  | step_Fal => stateWord "s" step_Fals "in literal false (expecting 's')" s c
  | step_Fals => stateWord "e" step_EndValue "in literal false (expecting 'e')" s c
  | step_N => stateWord "u" step_Nu "in literal null (expecting 'u')" s c
  | step_Nu => stateWord "l" step_Nul "in literal null (expecting 'l')" s c
  | step_Nul => stateWord "l" step_EndValue "in literal null (expecting 'l')" s c
  | step_Error => (scanError, s)
  end.

(** [s.eof()] *)
Definition eof (s : scanner) : opcode * scanner :=
  match err s with
  | Some _ => (scanError, s)
  | None =>
      if endTop s then (scanEnd, s)
      else
        let s := snd (scan_step s " ") in
        if endTop s then (scanEnd, s)
        else match err s with
             | None => (scanError,
                        set_err (Some (SyntaxError "unexpected end of JSON input" (bytes s))) s)
             | Some _ => (scanError, s)
             end
  end.

(** *** stream.go: reading one value from the stream

    The decoder is new and [Decode] is called once, so its buffer starts
    empty, nothing is ever slid out of it ([scanp] is 0 on entry) and the
    buffer is at every moment the prefix of the body read so far.  A
    [Read] on the body hands over as many bytes as the buffer has room
    for, and [io.EOF] once the body is exhausted. *)

Definition minRead : nat := 512.

(** [dec.refill()] on a buffer that holds the [have] bytes read so far and
    has capacity [cap], when [avail] bytes of the body are still unread:
    the number of bytes read so far and the capacity afterwards. *)
Definition refill (have cap avail : nat) : nat * nat :=
  let cap := if (cap - have <? minRead)%nat then (2 * cap + minRead)%nat else cap in
  ((have + Nat.min (cap - have) avail)%nat, cap).

(** [nonSpace(b)] *)
Definition nonSpace (b : list byte) : bool := existsb (fun c => negb (isSpace c)) b.

Inductive readResult :=
| ReadOk (n : nat)
| ReadErr (e : error).

(** [dec.readValue()].  [rest] is the body from offset [scanp] on; the
    bytes before [have] are in the buffer, the others are still in the
    stream.  The inner loop of the package scans the buffered bytes, its
    outer loop refills the buffer when the scan reaches its end; here a
    byte is scanned per step and the refill takes place when [scanp]
    reaches [have].  The result comes with the number of bytes read from
    the body. *)
Fixpoint readValue (buf : list byte) (s : scanner) (scanp have cap : nat)
    (rest : list byte) : readResult * nat :=
  match rest with
  | [] =>
      (* the buffer is scanned and the read returned io.EOF *)
      if opcode_eqb (fst (scan_step s " ")) scanEnd then (ReadOk scanp, have)
      else if nonSpace buf then (ReadErr io_ErrUnexpectedEOF, have)
      else (ReadErr io_EOF, have)
  | c :: rest' =>
      let '(have, cap) :=
        if (scanp <? have)%nat then (have, cap) else refill have cap (length rest) in
      let s := set_bytes (bytes s + 1) s in
      let '(op, s) := scan_step s c in
      match op with
      | scanEnd => (ReadOk scanp, have)
      | scanEndObject | scanEndArray =>
          let '(op', s') := stateEndValue s " " in
          if opcode_eqb op' scanEnd then (ReadOk (S scanp), have)
          else readValue buf s' (S scanp) have cap rest'
      | scanError =>
          match err s with
          | Some e => (ReadErr e, have)
          | None => (ReadErr (SyntaxError EmptyString (bytes s)), have)
          end
      | _ => readValue buf s (S scanp) have cap rest'
      end
  end.

(** *** decode.go: decoding the value into the handler's struct *)

(** [strconv.ParseInt(s, 10, 64)]; [None] is an error. *)
Fixpoint digits (acc : Z) (s : list byte) : option Z :=
  match s with
  | [] => Some acc
  | c :: s' => if isDigit c then digits (10 * acc + (code c - code "0")) s' else None
  end.

Definition ParseInt (s : list byte) : option Z :=
  let '(neg, ds) :=
    match s with
    | c :: s' => if eqc c "-" then (true, s') else if eqc c "+" then (false, s') else (false, s)
    | [] => (false, s)
    end in
  match ds with
  | [] => None
  | _ =>
      match digits 0 ds with
      | Some v =>
          let n := if neg then - v else v in
          if (- 2 ^ 63 <=? n) && (n <=? 2 ^ 63 - 1) then Some n else None
      | None => None
      end
  end.

Definition hexval (c : byte) : Z :=
  if isDigit c then code c - code "0"
  else if between "a" c "f" then code c - code "a" + 10
  else code c - code "A" + 10.

(** The UTF-8 encoding of a code point below 65536. *)
Definition utf8 (r : Z) : list byte :=
  if r <? 128 then [chr r]
  else if r <? 2048 then [chr (192 + r / 64); chr (128 + r mod 64)]
  else [chr (224 + r / 4096); chr (128 + (r / 64) mod 64); chr (128 + r mod 64)].

(** The inside of a quoted string, unquoted, as [unquoteBytes] does for an
    object key.  The handler only compares the result with the ASCII name
    [max_age]: an escape that is half of a surrogate pair is rendered as
    U+FFFD and bytes above 127 are kept as they are, where the package
    joins the pair and replaces invalid UTF-8; no byte of either can equal
    a byte of the name. *)
Fixpoint unquoteInside (s : list byte) : option (list byte) :=
  match s with
  | [] => None
  | c :: s1 =>
      if eqc c "034" then (match s1 with [] => Some [] | _ => None end)
      else if eqc c "\" then
        match s1 with
        | e :: s2 =>
            if eqc e "u" then
              match s2 with
              | h1 :: h2 :: h3 :: h4 :: s3 =>
                  let r := ((hexval h1 * 16 + hexval h2) * 16 + hexval h3) * 16 + hexval h4 in
                  let r := if (55296 <=? r) && (r <? 57344) then 65533 else r in
                  option_map (app (utf8 r)) (unquoteInside s3)
              | _ => None
              end
            else
              let plain (b : byte) := option_map (cons b) (unquoteInside s2) in
              if eqc e "034" || eqc e "\" || eqc e "/" || eqc e "'" then plain e
              else if eqc e "b" then plain "008"%char
              else if eqc e "f" then plain "012"%char
              else if eqc e "n" then plain "010"%char
              else if eqc e "r" then plain "013"%char
              else if eqc e "t" then plain "009"%char
              else None
        | [] => None
        end
      else if code c <? 32 then None
      else option_map (cons c) (unquoteInside s1)
  end.

Definition unquoteBytes (s : list byte) : option (list byte) :=
  match s with
  | c :: s1 => if eqc c "034" then unquoteInside s1 else None
  | [] => None
  end.

(** [foldName]: ASCII letters to upper case. *)
Definition foldName (s : list byte) : list byte :=
  map (fun c => if between "a" c "z" then chr (code c - 32) else c) s.

Definition bytes_eqb (a b : list byte) : bool :=
  String.eqb (string_of_list_ascii a) (string_of_list_ascii b).

(** The lookup of a key among the fields of the struct, which has the one
    field [MaxAge] with the name [max_age]: by exact name, then by folded
    name. *)
Definition isField (key : list byte) : bool :=
  bytes_eqb key (bytes_of "max_age")
  || bytes_eqb (foldName key) (foldName (bytes_of "max_age")).

(** The decoder over the value: [rest] is [d.data[d.off:]] and [prev] is
    [d.data[d.off-1]]; [MaxAge] is the field of the struct decoded
    into. *)
Record decodeState := {
  rest : list byte;
  prev : byte;
  op : opcode;
  scan : scanner;
  savedError : option error;
  MaxAge : Z
}.

Definition moved (r : list byte) (p : byte) (o : opcode) (s : scanner)
    (d : decodeState) : decodeState :=
  {| rest := r; prev := p; op := o; scan := s;
     savedError := savedError d; MaxAge := MaxAge d |}.

(** [d.saveError(err)] keeps the first error. *)
Definition saveError (e : error) (d : decodeState) : decodeState :=
  match savedError d with
  | Some _ => d
  | None => {| rest := rest d; prev := prev d; op := op d; scan := scan d;
               savedError := Some e; MaxAge := MaxAge d |}
  end.

Definition setMaxAge (n : Z) (d : decodeState) : decodeState :=
  {| rest := rest d; prev := prev d; op := op d; scan := scan d;
     savedError := savedError d; MaxAge := n |}.

(** [d.scanNext()] *)
Definition scanNext (d : decodeState) : decodeState :=
  match rest d with
  | c :: r => let '(o, s) := scan_step (scan d) c in moved r c o s d
  | [] => let '(o, s) := eof (scan d) in moved [] (prev d) o s d
  end.

(** [d.scanWhile(op)] *)
Fixpoint scanWhile_from (o : opcode) (s : scanner) (p : byte) (r : list byte)
    : list byte * byte * opcode * scanner :=
  match r with
  | [] => let '(o', s') := eof s in ([], p, o', s')
  | c :: r' =>
      let '(newOp, s') := scan_step s c in
      if negb (opcode_eqb newOp o) then (r', c, newOp, s')
      else scanWhile_from o s' c r'
  end.

Definition scanWhile (o : opcode) (d : decodeState) : decodeState :=
  let '(r, p, o', s) := scanWhile_from o (scan d) (prev d) (rest d) in
  moved r p o' s d.

(** The end of a string literal whose opening quote is read: the bytes up
    to and with the closing quote, and what follows them. *)
Fixpoint literalString (r : list byte) : list byte * list byte :=
  match r with
  | [] => ([], [])
  | c :: r' =>
      if eqc c "034" then ([c], r')
      else if eqc c "\" then
        match r' with
        | e :: r'' => let '(a, b) := literalString r'' in (c :: e :: a, b)
        | [] => ([c], [])
        end
      else let '(a, b) := literalString r' in (c :: a, b)
  end.

Definition isNumberByte (c : byte) : bool :=
  isDigit c || eqc c "." || eqc c "e" || eqc c "E" || eqc c "+" || eqc c "-".

Fixpoint literalNumber (r : list byte) : list byte * list byte :=
  match r with
  | [] => ([], [])
  | c :: r' =>
      if isNumberByte c then let '(a, b) := literalNumber r' in (c :: a, b)
      else ([], r)
  end.

(** [d.rescanLiteral()], with the literal it delimits:
    [d.data[start:d.readIndex()]]. *)
Definition rescanLiteral (d : decodeState) : list byte * decodeState :=
  let c := prev d in
  let '(a, b) :=
    if eqc c "034" then literalString (rest d)
    else if isDigit c || eqc c "-" then literalNumber (rest d)
    else if eqc c "t" then (take 3 (rest d), drop 3 (rest d))
    else if eqc c "f" then (take 4 (rest d), drop 4 (rest d))
    else if eqc c "n" then (take 3 (rest d), drop 3 (rest d))
    else ([], rest d) in
  match b with
  | c' :: r => let '(o, s) := stateEndValue (scan d) c' in (c :: a, moved r c' o s d)
  | [] => (c :: a, moved [] c scanEnd (scan d) d)
  end.

(** [d.skip()]; [None] is a run-time panic (an index out of range). *)
Fixpoint skip_from (depth : nat) (s : scanner) (r : list byte)
    : option (list byte * byte * opcode * scanner) :=
  match r with
  | [] => None
  | c :: r' =>
      let '(o, s') := scan_step s c in
      if (length (parseState s') <? depth)%nat then Some (r', c, o, s')
      else skip_from depth s' r'
  end.

Definition skip (d : decodeState) : option decodeState :=
  match skip_from (length (parseState (scan d))) (scan d) (rest d) with
  | Some (r, p, o, s) => Some (moved r p o s d)
  | None => None
  end.

Definition structType : string :=
  "struct { MaxAge int64 " +:+ DQ +:+ "json:\" +:+ DQ +:+ "max_age\" +:+ DQ +:+ DQ +:+ " }".

(** [d.literalStore(item, v, false)] for [v] the field [MaxAge], of kind
    int64. *)
Definition literalStore_field (item : list byte) (d : decodeState) : decodeState :=
  let typeError v := saveError (UnmarshalTypeError v "int64" EmptyString "max_age") d in
  match item with
  | [] => d
  | c :: _ =>
      if eqc c "n" then d
      else if eqc c "t" || eqc c "f" then typeError "bool"
      else if eqc c "034" then typeError "string"
      else match ParseInt item with
           | Some n => setMaxAge n d
           | None => typeError ("number " +:+ string_of_list_ascii item)
           end
  end.

(** [d.literalStore(item, v, false)] for [v] the struct itself. *)
Definition literalStore_struct (item : list byte) (d : decodeState) : decodeState :=
  let typeError v := saveError (UnmarshalTypeError v structType EmptyString EmptyString) d in
  match item with
  | [] => d
  | c :: _ =>
      if eqc c "n" then d
      else if eqc c "t" || eqc c "f" then typeError "bool"
      else if eqc c "034" then typeError "string"
      else typeError "number"
  end.

(** [d.value(subv)] for the value of an object member: [subv] is the field
    [MaxAge] when the key names it ([found]) and the invalid
    [reflect.Value] otherwise.  [None] is a run-time panic. *)
Definition value_member (found : bool) (d : decodeState) : option decodeState :=
  let typeError v d :=
    if found then saveError (UnmarshalTypeError v "int64" EmptyString "max_age") d else d in
  match op d with
  | scanBeginArray => option_map scanNext (skip (typeError "array" d))
  | scanBeginObject => option_map scanNext (skip (typeError "object" d))
  | scanBeginLiteral =>
      let '(item, d) := rescanLiteral d in
      Some (if found then literalStore_field item d else d)
  | _ => None
  end.

(** The loop of [d.object(v)] over the members of an object decoded into
    the struct.  Every turn reads at least the bytes of a key; [fuel]
    bounds the number of turns. *)
Fixpoint object_members (fuel : nat) (d : decodeState) : option decodeState :=
  match fuel with
  | O => None
  | S fuel =>
      let d := scanWhile scanSkipSpace d in
      if opcode_eqb (op d) scanEndObject then Some d
      else if negb (opcode_eqb (op d) scanBeginLiteral) then None
      else
        let '(item, d) := rescanLiteral d in
        match unquoteBytes item with
        | None => None
        | Some key =>
            let d := if opcode_eqb (op d) scanSkipSpace then scanWhile scanSkipSpace d else d in
            if negb (opcode_eqb (op d) scanObjectKey) then None
            else
              let d := scanWhile scanSkipSpace d in
              match value_member (isField key) d with
              | None => None
              | Some d =>
                  let d := if opcode_eqb (op d) scanSkipSpace
                           then scanWhile scanSkipSpace d else d in
                  if opcode_eqb (op d) scanEndObject then Some d
                  else if negb (opcode_eqb (op d) scanObjectValue) then None
                  else object_members fuel d
              end
        end
  end.

(** [d.value(rv)] for [rv] the pointer to the struct. *)
Definition value_struct (d : decodeState) : option decodeState :=
  match op d with
  | scanBeginArray =>
      option_map scanNext
        (skip (saveError (UnmarshalTypeError "array" structType EmptyString EmptyString) d))
  | scanBeginObject => option_map scanNext (object_members (length (rest d)) d)
  | scanBeginLiteral =>
      let '(item, d) := rescanLiteral d in Some (literalStore_struct item d)
  | _ => None
  end.

(** [d.unmarshal(v)] on the bytes of one value: the field [MaxAge]
    afterwards and the error returned; [None] is a run-time panic. *)
Definition unmarshal (data : list byte) : option (Z * option error) :=
  let d := {| rest := data; prev := " "%char; op := scanContinue;
              scan := reset newScanner; savedError := None; MaxAge := 0 |} in
  let d := scanWhile scanSkipSpace d in
  match value_struct d with
  | Some d => Some (MaxAge d, savedError d)
  | None => None
  end.

(** The outcome of [json.NewDecoder(body).Decode(&queryPayload)] on a
    [queryPayload] that is the zero struct. *)
Inductive decoded :=
| Decoded (MaxAge : Z) (err : option error)
| DecodePanic.

(** [json.NewDecoder(body).Decode(&queryPayload)]: the number of bytes the
    decoder read from [body] and the outcome. *)
Definition Decode (body : list byte) : nat * decoded :=
  match readValue body newScanner 0 0 0 body with
  | (ReadErr e, have) => (have, Decoded 0 (Some e))
  | (ReadOk n, have) =>
      match unmarshal (take n body) with
      | Some (m, e) => (have, Decoded m e)
      | None => (have, DecodePanic)
      end
  end.

End json.

(** ** package net/http

    What the handler uses of a request and of a response writer. *)

Module http.

Record Cookie := { Name : string; Value : string }.

(** A request: [Cookies] are the cookies its Cookie headers carry, in
    order ([r.Cookies()]); [Header] holds the other headers; [Body] is the
    whole byte stream of the body, empty for [http.NoBody]. *)
Record Request := {
  Method : string;
  RequestURI : string;
  Header : list (string * string);
  Cookies : list Cookie;
  Body : list byte
}.

(** [r.Cookie(name)]: the first cookie of that name, [None] for
    [ErrNoCookie]. *)
Definition Request_Cookie (r : Request) (name : string) : option Cookie :=
  if String.eqb name EmptyString then None
  else find (fun c => String.eqb (Name c) name) (Cookies r).

(** [r.Body = body] *)
Definition set_Body (body : list byte) (r : Request) : Request :=
  {| Method := Method r; RequestURI := RequestURI r; Header := Header r;
     Cookies := Cookies r; Body := body |}.

(** A response writer, as the calls made on it leave it: the header map,
    the status code of an explicit [WriteHeader] call if there was one,
    and the bytes written. *)
Record ResponseWriter := {
  header : gmap string (list string);
  wroteHeader : option Z;
  written : list byte
}.

Definition NewResponseWriter : ResponseWriter :=
  {| header := ∅; wroteHeader := None; written := [] |}.

(** [w.Header().Set(key, value)], for a key in canonical form. *)
Definition Header_Set (key value : string) (w : ResponseWriter) : ResponseWriter :=
  {| header := <[key := [value]]> (header w); wroteHeader := wroteHeader w;
     written := written w |}.

(** [w.Write(p)] *)
Definition Write (p : list byte) (w : ResponseWriter) : ResponseWriter :=
  {| header := header w; wroteHeader := wroteHeader w; written := written w ++ p |}.

(** The status code of the response: [StatusOK] unless [WriteHeader] was
    called. *)
Definition StatusOK : Z := 200.

Definition status (w : ResponseWriter) : Z := default StatusOK (wroteHeader w).

End http.

(** ** main.go *)

Definition RLPayload : string :=
  "{" +:+ LF +:+
  "    " +:+ DQ +:+ "job" +:+ DQ +:+ ": {" +:+ LF +:+
  "        " +:+ DQ +:+ "error" +:+ DQ +:+ ": " +:+ DQ
    +:+ "You have reached the request limit. Please try again later" +:+ DQ +:+ "," +:+ LF +:+
  "        " +:+ DQ +:+ "status" +:+ DQ +:+ ": 4" +:+ LF +:+
  "    }" +:+ LF +:+
  "}".

(** [RateLimiters].  A [*rate.Limiter] is an address in the heap of
    limiters; the mutex [mu] makes each operation on the registry atomic,
    which is how the operations are run here: one after the other. *)
Record RateLimiters := {
  limiters : gmap string nat;
  rate : Z;
  burst : Z
}.

(** The memory of the process the handler works on: the limiters
    allocated so far, each at the address that is its index, and the
    registry. *)
Record Store := {
  heap : list xrate.Limiter;
  rl : RateLimiters
}.

Definition NewRateLimiters (r : Z) (b : Z) : RateLimiters :=
  {| limiters := ∅; rate := r; burst := b |}.

(** One tick of [Flusher]'s loop:
    [rl.limiters = make(map[string]*rate.Limiter)] under the lock. *)
Definition Flusher_tick (st : Store) : Store :=
  {| heap := heap st;
     rl := {| limiters := ∅; rate := rate (rl st); burst := burst (rl st) |} |}.

(** [rl.GetLimiter(token)]: the address returned and the store
    afterwards. *)
Definition GetLimiter (token : string) (st : Store) : nat * Store :=
  match limiters (rl st) !! token with
  | Some p => (p, st)
  | None =>
      let lim := xrate.NewLimiter (rate (rl st)) (burst (rl st)) in
      let p := length (heap st) in
      (p, {| heap := heap st ++ [lim];
             rl := {| limiters := <[token := p]> (limiters (rl st));
                      rate := rate (rl st); burst := burst (rl st) |} |})
  end.

(** [lim.Allow()] through the pointer [p] at time [now]; [None] is the
    dereference of a pointer that is not in the heap. *)
Definition Allow (p : nat) (now : Z) (st : Store) : option (bool * Store) :=
  match heap st !! p with
  | Some lim =>
      let '(ok, lim') := xrate.Allow lim now in
      Some (ok, {| heap := <[p := lim']> (heap st); rl := rl st |})
  | None => None
  end.

(** What a call of the handler came to. *)
Inductive Outcome :=
| Responded (w : http.ResponseWriter)
    (* the handler returned without calling [next] *)
| Forwarded (w : http.ResponseWriter) (r : http.Request)
    (* the handler called [next.ServeHTTP(w, r)] *)
| Panicked
    (* a run-time panic, in the decoder or on a pointer outside the heap *).

(** The handler [LimitMiddleware(limiters)(next)] builds, run at time
    [now] (what [time.Now()] returns inside [Allow]) on the writer [w] and
    the request [r], with [st] holding [limiters].  [b] is the buffer the
    [io.TeeReader] fills: the bytes the decoder read from the body.  The
    deferred [r.Body.Close()] closes the [io.NopCloser] around the tee and
    does nothing. *)
Definition LimitMiddleware (now : Z) (st : Store) (w : http.ResponseWriter)
    (r : http.Request) : Store * Outcome :=
  match http.Request_Cookie r "remember_token" with
  | None => (st, Responded (http.Write (bytes_of "No cookie found") w))
  | Some remToken =>
      let '(n, res) := json.Decode (http.Body r) in
      let b := take n (http.Body r) in
      match res with
      | json.DecodePanic => (st, Panicked)
      | json.Decoded _ (Some err) =>
          (st, Responded
                 (http.Write (bytes_of ("Error parsing request body" +:+ Error err)) w))
      | json.Decoded MaxAge None =>
          let '(p, st) := GetLimiter (http.Value remToken) st in
          match Allow p now st with
          | None => (st, Panicked)
          | Some (ok, st) =>
              if negb ok && (MaxAge =? 0)
              then (st, Responded
                          (http.Write (bytes_of RLPayload)
                             (http.Header_Set "Content-Type" "application/json" w)))
              else (st, Forwarded w (http.set_Body b r))
          end
      end
  end.

(** The registry [main] builds and the store it starts from. *)
Definition main_rateLimiters : RateLimiters :=
  NewRateLimiters (xrate.Every time.Minute) 15.

Definition main_store : Store := {| heap := []; rl := main_rateLimiters |}.

(** ** Runs and invariants *)

(** The store after the handler served the requests [evs], each at its
    time and on a new response writer. *)
Fixpoint serve (evs : list (Z * http.Request)) (st : Store) : Store :=
  match evs with
  | [] => st
  | (now, r) :: evs' => serve evs' (fst (LimitMiddleware now st http.NewResponseWriter r))
  end.

(** The outcomes of the same run. *)
Fixpoint outcomes (evs : list (Z * http.Request)) (st : Store) : list Outcome :=
  match evs with
  | [] => []
  | (now, r) :: evs' =>
      let '(st', o) := LimitMiddleware now st http.NewResponseWriter r in
      o :: outcomes evs' st'
  end.

(** The limiter the registry holds for a token. *)
Definition limiterOf (token : string) (st : Store) : option xrate.Limiter :=
  match limiters (rl st) !! token with
  | Some p => heap st !! p
  | None => None
  end.

(** What a limiter that is in use satisfies: a positive interval between
    tokens, a burst and a credit that are not negative. *)
Definition bucket_inv (lim : xrate.Limiter) : Prop :=
  0 < xrate.limit lim /\ 0 <= xrate.burst lim /\ 0 <= xrate.tokens lim.

(** Every pointer of the registry is in the heap, and no two tokens share
    a pointer. *)
Definition wf (st : Store) : Prop :=
  (forall token p, limiters (rl st) !! token = Some p -> (p < length (heap st))%nat) /\
  (forall t1 t2 p, limiters (rl st) !! t1 = Some p -> limiters (rl st) !! t2 = Some p ->
                   t1 = t2).

(** The operations on the store between two flushes: a lookup in the
    registry or an [Allow] through a pointer. *)
Inductive epoch_step : Store -> Store -> Prop :=
| step_GetLimiter token st : epoch_step st (snd (GetLimiter token st))
| step_Allow p now st ok st' : Allow p now st = Some (ok, st') -> epoch_step st st'.

Inductive epoch : Store -> Store -> Prop :=
| epoch_refl st : epoch st st
| epoch_next st1 st2 st3 : epoch_step st1 st2 -> epoch st2 st3 -> epoch st1 st3.

(** Whether the request carries the token as its [remember_token]. *)
Definition from (token : string) (r : http.Request) : bool :=
  match http.Request_Cookie r "remember_token" with
  | Some c => String.eqb (http.Value c) token
  | None => false
  end.

(** The limiter [GetLimiter] hands out for a token: the one the registry
    holds, or a new one. *)
Definition bucketOf (token : string) (st : Store) : xrate.Limiter :=
  default (xrate.NewLimiter (rate (rl st)) (burst (rl st))) (limiterOf token st).

(** The token count a limiter shows at time [now]: its credit after the
    refill. *)
Definition tokensAt (now : Z) (lim : xrate.Limiter) : Z := xrate.advance lim now.

(** The reading of the override under which the bucket is left alone, for
    one request: the request is forwarded, and the tokens its identity's
    limiter shows after the call are those the refill alone gives. *)
Definition override_spares_bucket (now : Z) (st : Store) (r : http.Request) : Prop :=
  forall c n m,
    http.Request_Cookie r "remember_token" = Some c ->
    json.Decode (http.Body r) = (n, json.Decoded m None) ->
    m <> 0 ->
    (exists w r', snd (LimitMiddleware now st http.NewResponseWriter r) = Forwarded w r') /\
    (tokensAt now <$>
       limiterOf (http.Value c) (fst (LimitMiddleware now st http.NewResponseWriter r)))
    = Some (tokensAt now (bucketOf (http.Value c) st)).

(** ** The process over time *)

(** The store of a process that has just built its registry with
    [NewRateLimiters(r, b)]: no limiter is allocated yet. *)
Definition new_store (r b : Z) : Store := {| heap := []; rl := NewRateLimiters r b |}.

(** What happens to the registry while the process runs: the handler
    serves a request at some time, or the ticker of [Flusher] fires. *)
Inductive event :=
| Serve (now : Z) (r : http.Request)
| Tick.

(** The store after the events [evs], in order. *)
Fixpoint process (evs : list event) (st : Store) : Store :=
  match evs with
  | [] => st
  | Serve now r :: evs' =>
      process evs' (fst (LimitMiddleware now st http.NewResponseWriter r))
  | Tick :: evs' => process evs' (Flusher_tick st)
  end.

(** Every limiter of the heap was made with the rate [r] and the burst
    [b], and holds a credit between nothing and the full burst. *)
Definition limiters_ok (r b : Z) (st : Store) : Prop :=
  Forall (fun lim => xrate.limit lim = r /\ xrate.burst lim = b /\
                     0 <= xrate.tokens lim <= b * r) (heap st).

(** The identity under which a request reaches the rate-limit check, if
    it does: the value of its cookie, when its body decodes. *)
Definition checked_token (r : http.Request) : option string :=
  match http.Request_Cookie r "remember_token" with
  | Some c =>
      match snd (json.Decode (http.Body r)) with
      | json.Decoded _ None => Some (http.Value c)
      | _ => None
      end
  | None => None
  end.

Definition reaches_check_as (token : string) (r : http.Request) : bool :=
  match checked_token r with
  | Some t => String.eqb t token
  | None => false
  end.

(** Whether the body decodes with [max_age] equal to 0: no override. *)
Definition no_override (r : http.Request) : bool :=
  match snd (json.Decode (http.Body r)) with
  | json.Decoded m None => m =? 0
  | _ => false
  end.

Definition is_Forwarded (o : Outcome) : bool :=
  match o with
  | Forwarded _ _ => true
  | _ => false
  end.

(** The number of requests of a run that carry the token, ask for no
    override, were served at a time from [lo] to [hi] and were
    forwarded. *)
Fixpoint forwarded_in (lo hi : Z) (token : string) (evs : list (Z * http.Request))
    (st : Store) : Z :=
  match evs with
  | [] => 0
  | (now, r) :: evs' =>
      let '(st', o) := LimitMiddleware now st http.NewResponseWriter r in
      (if from token r && no_override r && is_Forwarded o && (lo <=? now) && (now <=? hi)
       then 1 else 0)
      + forwarded_in lo hi token evs' st'
  end.

(** The times at which the requests of a run reach the check under the
    token. *)
Definition check_times (token : string) (evs : list (Z * http.Request)) : list Z :=
  map fst (List.filter (fun e => reaches_check_as token (snd e)) evs).

(** Two stores that no request can tell apart: the same configuration and
    the same limiter for every token. *)
Definition same_view (st1 st2 : Store) : Prop :=
  rate (rl st1) = rate (rl st2) /\ burst (rl st1) = burst (rl st2) /\
  forall token, limiterOf token st1 = limiterOf token st2.

(** ** Requests used as examples *)

Definition request (cookies : list http.Cookie) (body : string) : http.Request :=
  {| http.Method := "POST"; http.RequestURI := "/api/query_results";
     http.Header := [("Content-Type", "application/json")];
     http.Cookies := cookies; http.Body := bytes_of body |}.

Definition token_abc : list http.Cookie :=
  [ {| http.Name := "remember_token"; http.Value := "abc" |} ].

Definition token_xyz : list http.Cookie :=
  [ {| http.Name := "remember_token"; http.Value := "xyz" |} ].

Definition body_max_age (n : string) : string :=
  "{" +:+ DQ +:+ "max_age" +:+ DQ +:+ ":" +:+ n +:+ "}".

Definition spaces (n : nat) : string := string_of_list_ascii (repeat " "%char n).

Definition cookie_abc : http.Cookie :=
  {| http.Name := "remember_token"; http.Value := "abc" |}.

(** The store after the identity [abc] spent its burst at time 1000. *)
Definition exhausted_store : Store :=
  serve (repeat (1000, request token_abc (body_max_age "0")) 15) main_store.

(** * Properties *)

(** ** The token bucket *)

Ltac zbool :=
  repeat match goal with
         | |- context [?a <? ?b] => destruct (Z.ltb_spec a b)
         | |- context [?a <=? ?b] => destruct (Z.leb_spec a b)
         | |- context [?a >? ?b] => rewrite (Z.gtb_ltb a b)
         | |- context [?a =? ?b] => destruct (Z.eqb_spec a b)
         end.

Section TokenBucket.

Local Abbreviation limit := xrate.limit.
Local Abbreviation burst := xrate.burst.
Local Abbreviation tokens := xrate.tokens.
Local Abbreviation last := xrate.last.

Lemma advance_le_cap lim t : xrate.advance lim t <= burst lim * limit lim.
Proof. unfold xrate.advance. zbool; lia. Qed.

Lemma advance_nonneg lim t : bucket_inv lim -> 0 <= xrate.advance lim t.
Proof. intros (Hl & Hb & Ht). unfold xrate.advance. zbool; nia. Qed.

(** [Allow] in one equation: it succeeds when the burst is at least one
    and the refilled credit holds one token. *)
Lemma Allow_eq lim t :
  xrate.Allow lim t =
  if (1 <=? burst lim) && (limit lim <=? xrate.advance lim t)
  then (true, {| xrate.limit := limit lim; xrate.burst := burst lim;
                 xrate.tokens := xrate.advance lim t - limit lim; xrate.last := t |})
  else (false, {| xrate.limit := limit lim; xrate.burst := burst lim;
                  xrate.tokens := tokens lim; xrate.last := Z.min t (last lim) |}).
Proof.
  unfold xrate.Allow, xrate.reserveN.
  rewrite Z.mul_1_l.
  set (a := xrate.advance lim t).
  replace (if t <? last lim then t else last lim) with (Z.min t (last lim))
    by (zbool; lia).
  destruct (Z.leb_spec 1 (burst lim)); simpl; [| reflexivity].
  destruct (Z.leb_spec (limit lim) a), (Z.ltb_spec (a - limit lim) 0);
    try lia; zbool; try lia; reflexivity.
Qed.

Lemma Allow_inv lim t : bucket_inv lim -> bucket_inv (snd (xrate.Allow lim t)).
Proof.
  intros (Hl & Hb & Ht). rewrite Allow_eq.
  destruct (Z.leb_spec 1 (burst lim)), (Z.leb_spec (limit lim) (xrate.advance lim t));
    simpl; repeat split; simpl; lia.
Qed.

Lemma Allow_config lim t :
  limit (snd (xrate.Allow lim t)) = limit lim /\
  burst (snd (xrate.Allow lim t)) = burst lim.
Proof.
  rewrite Allow_eq.
  destruct ((1 <=? burst lim) && (limit lim <=? xrate.advance lim t)); simpl; auto.
Qed.

(** A limiter that holds [k] tokens and is asked [k + 1] times at the time
    of its last update grants the first [k] calls and refuses the last. *)
Lemma run_at_last (k : nat) : forall lim t,
  0 < limit lim -> last lim = t ->
  tokens lim = Z.of_nat k * limit lim -> Z.of_nat k <= burst lim ->
  map snd (xrate.run lim (repeat t (S k))) = repeat true k ++ [false].
Proof.
  induction k as [| k IH]; intros lim t Hl Hlast Htok Hk.
  - simpl. rewrite Allow_eq.
    assert (Ha : xrate.advance lim t = 0).
    { unfold xrate.advance. rewrite Hlast, Htok. zbool; lia. }
    rewrite Ha.
    destruct (Z.leb_spec 1 (burst lim)), (Z.leb_spec (limit lim) 0);
      simpl; try lia; reflexivity.
  - change (repeat t (S (S k))) with (t :: repeat t (S k)).
    cbn [xrate.run]. rewrite Allow_eq.
    assert (Ha : xrate.advance lim t = Z.of_nat (S k) * limit lim).
    { unfold xrate.advance. rewrite Hlast, Htok. zbool; nia. }
    rewrite Ha.
    destruct (Z.leb_spec 1 (burst lim)); [| lia].
    destruct (Z.leb_spec (limit lim) (Z.of_nat (S k) * limit lim)); [| nia].
    cbn [andb map snd repeat app]. f_equal.
    apply IH; simpl; try lia.
Qed.

(** The first call on a new limiter succeeds, whatever the time, as soon
    as the burst is at least one. *)
Lemma Allow_NewLimiter r b t :
  0 < r -> 1 <= b ->
  xrate.Allow (xrate.NewLimiter r b) t =
  (true, {| xrate.limit := r; xrate.burst := b;
            xrate.tokens := (b - 1) * r; xrate.last := t |}).
Proof.
  intros Hr Hb. rewrite Allow_eq.
  assert (Ha : xrate.advance (xrate.NewLimiter r b) t = b * r).
  { unfold xrate.advance, xrate.NewLimiter. simpl. zbool; lia. }
  rewrite Ha. simpl.
  destruct (Z.leb_spec 1 b); [| lia].
  destruct (Z.leb_spec r (b * r)); [| nia].
  simpl. do 2 f_equal. lia.
Qed.

(** The credit a call leaves for a later call: what it found, less the
    token it took, plus the refill in between. *)
Lemma advance_after_Allow lim t0 t1 :
  bucket_inv lim -> t0 <= t1 ->
  xrate.advance (snd (xrate.Allow lim t0)) t1
  + (if fst (xrate.Allow lim t0) then limit lim else 0)
  <= xrate.advance lim t0 + (t1 - t0).
Proof.
  intros (Hl & Hb & Ht) H01. rewrite Allow_eq.
  pose proof (advance_le_cap lim t0) as Hcap.
  destruct (Z.leb_spec 1 (burst lim)), (Z.leb_spec (limit lim) (xrate.advance lim t0));
    cbn [andb fst snd].
  1: unfold xrate.advance at 1; cbn [xrate.tokens xrate.last xrate.burst xrate.limit];
     zbool; lia.
  all: unfold xrate.advance; cbn [xrate.tokens xrate.last xrate.burst xrate.limit];
    zbool; lia.
Qed.

Lemma Allow_true_credit lim t :
  fst (xrate.Allow lim t) = true -> limit lim <= xrate.advance lim t.
Proof.
  rewrite Allow_eq.
  destruct (Z.leb_spec 1 (burst lim)), (Z.leb_spec (limit lim) (xrate.advance lim t));
    cbn [andb fst]; intros; (lia || discriminate).
Qed.

Section Window.

Variables lo hi : Z.

Lemma successes_in_cons t ok tr :
  xrate.successes_in lo hi ((t, ok) :: tr)
  = (if ok && (lo <=? t) && (t <=? hi) then 1 else 0) + xrate.successes_in lo hi tr.
Proof. reflexivity. Qed.

Lemma run_cons lim t ts :
  xrate.run lim (t :: ts)
  = (t, fst (xrate.Allow lim t)) :: xrate.run (snd (xrate.Allow lim t)) ts.
Proof. simpl. destruct (xrate.Allow lim t); reflexivity. Qed.

Lemma successes_in_nonneg tr : 0 <= xrate.successes_in lo hi tr.
Proof.
  induction tr as [| [t ok] tr IH]; [simpl; lia |].
  rewrite successes_in_cons.
  destruct (ok && (lo <=? t) && (t <=? hi)); lia.
Qed.

(** From the first call on, the successes up to [hi] are paid by the
    credit at that call and the refill until [hi]. *)
Lemma successes_from : forall ts lim t0,
  bucket_inv lim -> StronglySorted Z.le (t0 :: ts) ->
  (t0 <= hi ->
   xrate.successes_in lo hi (xrate.run lim (t0 :: ts)) * limit lim
   <= xrate.advance lim t0 + (hi - t0)) /\
  (hi < t0 -> xrate.successes_in lo hi (xrate.run lim (t0 :: ts)) = 0).
Proof.
  induction ts as [| t1 ts IH]; intros lim t0 Hinv Hs.
  - pose proof (advance_nonneg lim t0 Hinv) as Hnn.
    pose proof (Allow_true_credit lim t0) as Hcr.
    rewrite run_cons, successes_in_cons. cbn [xrate.run xrate.successes_in].
    destruct (fst (xrate.Allow lim t0)); cbn [andb]; split; intros;
      zbool; cbn [andb]; try specialize (Hcr eq_refl); lia.
  - assert (Hs' : StronglySorted Z.le (t1 :: ts)) by (inversion Hs; assumption).
    assert (H01 : t0 <= t1).
    { inversion Hs as [| ? ? _ Hall]. inversion Hall; assumption. }
    pose proof (advance_nonneg lim t0 Hinv) as Hnn.
    pose proof (Allow_true_credit lim t0) as Hcr.
    pose proof (advance_after_Allow lim t0 t1 Hinv H01) as Hpay.
    pose proof (Allow_config lim t0) as [Hcl _].
    specialize (IH (snd (xrate.Allow lim t0)) t1 (Allow_inv lim t0 Hinv) Hs')
      as [IH1 IH2].
    rewrite Hcl in IH1.
    rewrite run_cons, successes_in_cons.
    set (rest := xrate.successes_in lo hi (xrate.run _ (t1 :: ts))) in *.
    destruct Hinv as (Hl & Hb & Ht).
    split; intros Ht0.
    + destruct (Z_le_gt_dec t1 hi) as [Hle | Hgt].
      * specialize (IH1 Hle).
        destruct (fst (xrate.Allow lim t0)); cbn [andb];
          zbool; cbn [andb]; try specialize (Hcr eq_refl); lia.
      * rewrite IH2 by lia.
        destruct (fst (xrate.Allow lim t0)); cbn [andb];
          zbool; cbn [andb]; try specialize (Hcr eq_refl); lia.
    + rewrite IH2 by lia.
      destruct (Z.leb_spec t0 hi); [lia |]. rewrite andb_false_r. reflexivity.
Qed.

(** In a run of calls at times in order, the successes inside the window
    from [lo] to [hi] are at most the burst and the refill of the
    window. *)
Lemma successes_window : forall ts lim,
  lo <= hi -> bucket_inv lim -> StronglySorted Z.le ts ->
  xrate.successes_in lo hi (xrate.run lim ts) * limit lim
  <= burst lim * limit lim + (hi - lo).
Proof.
  induction ts as [| t0 ts IH]; intros lim Hw Hinv Hs.
  - destruct Hinv as (Hl & Hb & Ht). simpl. nia.
  - destruct (Z_lt_le_dec t0 lo) as [Hbefore | Hin].
    + assert (Hs' : StronglySorted Z.le ts) by (inversion Hs; assumption).
      pose proof (Allow_config lim t0) as [Hcl Hcb].
      specialize (IH (snd (xrate.Allow lim t0)) Hw (Allow_inv lim t0 Hinv) Hs').
      rewrite Hcl, Hcb in IH.
      rewrite run_cons, successes_in_cons.
      destruct (Z.leb_spec lo t0); [lia |].
      rewrite andb_false_r. cbn [andb]. lia.
    + destruct (successes_from ts lim t0 Hinv Hs) as [H1 H2].
      pose proof (advance_le_cap lim t0).
      destruct Hinv as (Hl & Hb & Ht).
      destruct (Z_le_gt_dec t0 hi) as [Hle | Hgt].
      * specialize (H1 Hle). lia.
      * rewrite H2 by lia. nia.
Qed.

End Window.

End TokenBucket.

(** ** The registry *)

Section Registry.

Implicit Types (st : Store) (token : string) (p : nat).

Lemma wf_main_store : wf main_store.
Proof.
  split; simpl; intros; match goal with H : ∅ !! _ = Some _ |- _ =>
    rewrite lookup_empty in H; discriminate end.
Qed.

Lemma Flusher_tick_wf st : wf (Flusher_tick st).
Proof.
  split; simpl; intros; match goal with H : ∅ !! _ = Some _ |- _ =>
    rewrite lookup_empty in H; discriminate end.
Qed.

Lemma GetLimiter_found token st p :
  limiters (rl st) !! token = Some p -> GetLimiter token st = (p, st).
Proof. intros H. unfold GetLimiter. rewrite H. reflexivity. Qed.

Lemma GetLimiter_new token st :
  limiters (rl st) !! token = None ->
  GetLimiter token st =
  (length (heap st),
   {| heap := heap st ++ [xrate.NewLimiter (rate (rl st)) (burst (rl st))];
      rl := {| limiters := <[token := length (heap st)]> (limiters (rl st));
               rate := rate (rl st); burst := burst (rl st) |} |}).
Proof. intros H. unfold GetLimiter. rewrite H. reflexivity. Qed.

Lemma GetLimiter_config token st :
  rate (rl (snd (GetLimiter token st))) = rate (rl st) /\
  burst (rl (snd (GetLimiter token st))) = burst (rl st).
Proof. unfold GetLimiter. destruct (limiters (rl st) !! token); simpl; auto. Qed.

Lemma GetLimiter_wf token st : wf st -> wf (snd (GetLimiter token st)).
Proof.
  intros [Hin Hinj]. unfold GetLimiter.
  destruct (limiters (rl st) !! token) as [p |] eqn:Hl; simpl; [split; assumption |].
  split; simpl.
  - intros t q Hq. rewrite length_app. simpl.
    destruct (decide (token = t)) as [<- | Hne].
    + rewrite lookup_insert_eq in Hq. injection Hq as <-. lia.
    + rewrite lookup_insert_ne in Hq by assumption.
      apply Hin in Hq. lia.
  - intros t1 t2 q H1 H2.
    destruct (decide (token = t1)) as [<- | Hne1], (decide (token = t2)) as [<- | Hne2];
      try reflexivity.
    + rewrite lookup_insert_eq in H1. injection H1 as <-.
      rewrite lookup_insert_ne in H2 by congruence.
      apply Hin in H2. lia.
    + rewrite lookup_insert_eq in H2. injection H2 as <-.
      rewrite lookup_insert_ne in H1 by congruence.
      apply Hin in H1. lia.
    + rewrite lookup_insert_ne in H1, H2 by assumption.
      eapply Hinj; eassumption.
Qed.

(** After [GetLimiter] the registry maps the token to the pointer
    returned, and the pointer leads to the token's bucket. *)
Lemma GetLimiter_own token st :
  wf st ->
  limiters (rl (snd (GetLimiter token st))) !! token = Some (fst (GetLimiter token st)) /\
  heap (snd (GetLimiter token st)) !! fst (GetLimiter token st) = Some (bucketOf token st).
Proof.
  intros [Hin _]. unfold GetLimiter, bucketOf, limiterOf.
  destruct (limiters (rl st) !! token) as [p |] eqn:Hl; simpl.
  - split; [assumption |].
    destruct (lookup_lt_is_Some_2 (heap st) p (Hin _ _ Hl)) as [lim Hlim].
    rewrite Hlim. reflexivity.
  - split; [apply lookup_insert_eq |].
    apply list_lookup_middle. reflexivity.
Qed.

Lemma GetLimiter_other token t2 st :
  wf st -> token <> t2 -> limiterOf t2 (snd (GetLimiter token st)) = limiterOf t2 st.
Proof.
  intros [Hin _] Hne. unfold GetLimiter, limiterOf.
  destruct (limiters (rl st) !! token) as [p |] eqn:Hl; simpl; [reflexivity |].
  rewrite lookup_insert_ne by assumption.
  destruct (limiters (rl st) !! t2) as [q |] eqn:Hq; [| reflexivity].
  apply lookup_app_l. eapply Hin; eassumption.
Qed.

Lemma Allow_some p now st lim :
  heap st !! p = Some lim ->
  Allow p now st =
  Some (fst (xrate.Allow lim now),
        {| heap := <[p := snd (xrate.Allow lim now)]> (heap st); rl := rl st |}).
Proof.
  intros H. unfold Allow. rewrite H. destruct (xrate.Allow lim now); reflexivity.
Qed.

Lemma Allow_rl p now st ok st' : Allow p now st = Some (ok, st') -> rl st' = rl st.
Proof.
  unfold Allow. destruct (heap st !! p) as [lim |]; [| discriminate].
  destruct (xrate.Allow lim now). intros [= _ <-]. reflexivity.
Qed.

Lemma Allow_length p now st ok st' :
  Allow p now st = Some (ok, st') -> length (heap st') = length (heap st).
Proof.
  unfold Allow. destruct (heap st !! p) as [lim |]; [| discriminate].
  destruct (xrate.Allow lim now). intros [= _ <-]. simpl. apply length_insert.
Qed.

Lemma Allow_wf p now st ok st' : wf st -> Allow p now st = Some (ok, st') -> wf st'.
Proof.
  intros [Hin Hinj] H. pose proof (Allow_rl _ _ _ _ _ H) as Hrl.
  pose proof (Allow_length _ _ _ _ _ H) as Hlen.
  split; rewrite Hrl; [| assumption].
  intros t q Hq. rewrite Hlen. eapply Hin; eassumption.
Qed.

Lemma Allow_other p now st ok st' token t2 :
  wf st -> limiters (rl st) !! token = Some p -> token <> t2 ->
  Allow p now st = Some (ok, st') -> limiterOf t2 st' = limiterOf t2 st.
Proof.
  intros [Hin Hinj] Hp Hne H. unfold limiterOf.
  rewrite (Allow_rl _ _ _ _ _ H).
  destruct (limiters (rl st) !! t2) as [q |] eqn:Hq; [| reflexivity].
  assert (p <> q) by (intros ->; apply Hne; eapply Hinj; eassumption).
  revert H. unfold Allow. destruct (heap st !! p) as [lim |]; [| discriminate].
  destruct (xrate.Allow lim now). intros [= _ <-]. simpl.
  apply list_lookup_insert_ne. assumption.
Qed.

(** An operation of an epoch keeps the entries of the registry. *)
Lemma epoch_step_lookup st st' token p :
  epoch_step st st' ->
  limiters (rl st) !! token = Some p -> limiters (rl st') !! token = Some p.
Proof.
  intros Hstep Hl. destruct Hstep as [t st | q now st ok st' H].
  - unfold GetLimiter. destruct (limiters (rl st) !! t) eqn:Ht; simpl; [assumption |].
    rewrite lookup_insert_ne; [assumption | congruence].
  - rewrite (Allow_rl _ _ _ _ _ H). assumption.
Qed.

Lemma epoch_lookup st st' token p :
  epoch st st' ->
  limiters (rl st) !! token = Some p -> limiters (rl st') !! token = Some p.
Proof.
  induction 1 as [| st1 st2 st3 Hstep _ IH]; [auto |].
  intros Hl. apply IH. eapply epoch_step_lookup; eassumption.
Qed.

Lemma GetLimiter_registered token st :
  limiters (rl (snd (GetLimiter token st))) !! token = Some (fst (GetLimiter token st)).
Proof.
  unfold GetLimiter. destruct (limiters (rl st) !! token) eqn:Hl; simpl;
    [assumption | apply lookup_insert_eq].
Qed.

End Registry.

(** ** What the decoder reads of the body *)

Section Reading.

(** Once the whole body is in the buffer, nothing more is read. *)
Lemma readValue_all_read buf : forall rest s scanp have cap,
  have = (scanp + length rest)%nat ->
  snd (json.readValue buf s scanp have cap rest) = have.
Proof.
  induction rest as [| c rest IH]; intros s scanp have cap Hhave.
  - simpl. destruct (json.opcode_eqb _ _); [reflexivity |].
    destruct (json.nonSpace buf); reflexivity.
  - cbn [json.readValue].
    assert (Hlt : (scanp <? have)%nat = true).
    { apply Nat.ltb_lt. simpl in Hhave. lia. }
    rewrite Hlt.
    assert (Hnext : have = (S scanp + length rest)%nat) by (simpl in Hhave; lia).
    destruct (json.scan_step _ c) as [o s1].
    destruct o; try (apply IH; assumption); try reflexivity.
    + destruct (json.stateEndValue s1 " ") as [o' s2].
      destruct (json.opcode_eqb o' json.scanEnd); [reflexivity | apply IH; assumption].
    + destruct (json.stateEndValue s1 " ") as [o' s2].
      destruct (json.opcode_eqb o' json.scanEnd); [reflexivity | apply IH; assumption].
    + destruct (json.err s1); reflexivity.
Qed.

(** A body of at most 512 bytes is read whole by the first read. *)
Lemma readValue_short_body buf : forall rest s,
  (length rest <= json.minRead)%nat ->
  snd (json.readValue buf s 0 0 0 rest) = length rest.
Proof.
  intros [| c rest] s Hlen.
  - cbn [json.readValue].
    destruct (json.opcode_eqb (fst (json.scan_step s " ")) json.scanEnd); [reflexivity |].
    destruct (json.nonSpace buf); reflexivity.
  - cbn [json.readValue].
    change (0 <? 0)%nat with false. cbv iota.
    assert (Hre : json.refill 0 0 (length (c :: rest))
                  = (length (c :: rest), json.minRead)).
    { unfold json.refill. change (0 - 0 <? json.minRead)%nat with true.
      cbv iota. f_equal. rewrite Nat.sub_0_r. cbn [Nat.add].
      apply Nat.min_r. exact Hlen. }
    rewrite Hre.
    assert (Hnext : length (c :: rest) = (1 + length rest)%nat) by reflexivity.
    destruct (json.scan_step _ c) as [o s1].
    destruct o; try (apply readValue_all_read; assumption); try reflexivity.
    + destruct (json.stateEndValue s1 " ") as [o' s2].
      destruct (json.opcode_eqb o' json.scanEnd);
        [reflexivity | apply readValue_all_read; assumption].
    + destruct (json.stateEndValue s1 " ") as [o' s2].
      destruct (json.opcode_eqb o' json.scanEnd);
        [reflexivity | apply readValue_all_read; assumption].
    + destruct (json.err s1); reflexivity.
Qed.

Lemma Decode_short_body body :
  (length body <= json.minRead)%nat -> fst (json.Decode body) = length body.
Proof.
  intros Hlen.
  pose proof (readValue_short_body body body json.newScanner Hlen) as H.
  unfold json.Decode.
  destruct (json.readValue body json.newScanner 0 0 0 body) as [[n | e] have];
    cbn [snd] in H; subst have; [| reflexivity].
  destruct (json.unmarshal (take n body)) as [[m e] |]; reflexivity.
Qed.

End Reading.

(** ** The handler *)

Section Handler.

Implicit Types (st : Store) (w : http.ResponseWriter) (r : http.Request).

Lemma LimitMiddleware_no_cookie now st w r :
  http.Request_Cookie r "remember_token" = None ->
  LimitMiddleware now st w r
  = (st, Responded (http.Write (bytes_of "No cookie found") w)).
Proof. intros H. unfold LimitMiddleware. rewrite H. reflexivity. Qed.

Lemma LimitMiddleware_parse_error now st w r c n m e :
  http.Request_Cookie r "remember_token" = Some c ->
  json.Decode (http.Body r) = (n, json.Decoded m (Some e)) ->
  LimitMiddleware now st w r
  = (st, Responded
           (http.Write (bytes_of ("Error parsing request body" +:+ Error e)) w)).
Proof. intros Hc Hd. unfold LimitMiddleware. rewrite Hc, Hd. reflexivity. Qed.

(** The path through the rate-limit check: the token's bucket is looked
    up or made, [Allow] is run on it, and only then is [MaxAge] looked
    at.  Nothing but that bucket changes. *)
Lemma LimitMiddleware_checked now st w r c n m :
  wf st ->
  http.Request_Cookie r "remember_token" = Some c ->
  json.Decode (http.Body r) = (n, json.Decoded m None) ->
  exists st',
    LimitMiddleware now st w r
    = (st',
       if negb (fst (xrate.Allow (bucketOf (http.Value c) st) now)) && (m =? 0)
       then Responded
              (http.Write (bytes_of RLPayload)
                 (http.Header_Set "Content-Type" "application/json" w))
       else Forwarded w (http.set_Body (take n (http.Body r)) r)) /\
    limiterOf (http.Value c) st'
    = Some (snd (xrate.Allow (bucketOf (http.Value c) st) now)) /\
    (forall t2, http.Value c <> t2 -> limiterOf t2 st' = limiterOf t2 st) /\
    wf st' /\ rate (rl st') = rate (rl st) /\ burst (rl st') = burst (rl st).
Proof.
  intros Hwf Hc Hd. unfold LimitMiddleware. rewrite Hc, Hd.
  pose proof (GetLimiter_own (http.Value c) st Hwf) as [Hreg Hheap].
  pose proof (GetLimiter_wf (http.Value c) st Hwf) as Hwf1.
  pose proof (GetLimiter_config (http.Value c) st) as [Hrate Hburst].
  pose proof (fun t2 => GetLimiter_other (http.Value c) t2 st Hwf) as Hother.
  destruct (GetLimiter (http.Value c) st) as [p st1]. cbn [fst snd] in *.
  pose proof (Allow_some p now st1 _ Hheap) as HA.
  rewrite HA.
  set (lim := bucketOf (http.Value c) st) in *.
  exists {| heap := <[p := snd (xrate.Allow lim now)]> (heap st1); rl := rl st1 |}.
  split; [destruct (negb (fst (xrate.Allow lim now)) && (m =? 0)); reflexivity |].
  repeat split.
  - unfold limiterOf. cbn [rl heap]. rewrite Hreg.
    apply list_lookup_insert_eq. eapply lookup_lt_Some; eassumption.
  - intros t2 Hne. rewrite <- (Hother t2 Hne).
    eapply Allow_other; eassumption.
  - eapply Allow_wf; eassumption.
  - eapply Allow_wf; eassumption.
  - assumption.
  - assumption.
Qed.

(** The body [next] is given is the part of the body the decoder read. *)
Lemma forwarded_body_prefix now st w r st' w' r' :
  LimitMiddleware now st w r = (st', Forwarded w' r') ->
  http.Body r' = take (fst (json.Decode (http.Body r))) (http.Body r).
Proof.
  unfold LimitMiddleware.
  destruct (http.Request_Cookie r "remember_token") as [c |]; [| discriminate].
  destruct (json.Decode (http.Body r)) as [n [m [e |] |]]; try discriminate.
  destruct (GetLimiter (http.Value c) st) as [p st1].
  destruct (Allow p now st1) as [[ok st2] |]; [| discriminate].
  destruct (negb ok && (m =? 0)); [discriminate |].
  intros [= _ _ <-]. reflexivity.
Qed.

(** A body of at most 512 bytes, which the decoder reads whole, is
    forwarded whole. *)
Lemma forwarded_short_body now st w r st' w' r' :
  (length (http.Body r) <= json.minRead)%nat ->
  LimitMiddleware now st w r = (st', Forwarded w' r') ->
  http.Body r' = http.Body r.
Proof.
  intros Hlen H. rewrite (forwarded_body_prefix _ _ _ _ _ _ _ H).
  rewrite Decode_short_body by assumption. apply take_ge. reflexivity.
Qed.

(** A request either never reaches the check, and then leaves every store
    as it is, or carries a cookie and a body that decodes. *)
Lemma LimitMiddleware_cases r :
  (forall now st w, fst (LimitMiddleware now st w r) = st) \/
  exists c n m,
    http.Request_Cookie r "remember_token" = Some c /\
    json.Decode (http.Body r) = (n, json.Decoded m None).
Proof.
  unfold LimitMiddleware.
  destruct (http.Request_Cookie r "remember_token") as [c |]; [| left; reflexivity].
  destruct (json.Decode (http.Body r)) as [n [m [e |] |]];
    [left; reflexivity | | left; reflexivity].
  right. eauto.
Qed.

Lemma LimitMiddleware_wf now st w r : wf st -> wf (fst (LimitMiddleware now st w r)).
Proof.
  intros Hwf. destruct (LimitMiddleware_cases r) as [H | (c & n & m & Hc & Hd)];
    [rewrite H; assumption |].
  destruct (LimitMiddleware_checked now st w r c n m Hwf Hc Hd) as (st' & -> & _ & _ & H & _).
  assumption.
Qed.

Lemma LimitMiddleware_config now st w r :
  wf st ->
  rate (rl (fst (LimitMiddleware now st w r))) = rate (rl st) /\
  burst (rl (fst (LimitMiddleware now st w r))) = burst (rl st).
Proof.
  intros Hwf. destruct (LimitMiddleware_cases r) as [H | (c & n & m & Hc & Hd)];
    [rewrite H; auto |].
  destruct (LimitMiddleware_checked now st w r c n m Hwf Hc Hd)
    as (st' & -> & _ & _ & _ & H1 & H2).
  auto.
Qed.

(** A request of another identity, or of none, leaves a token's limiter
    as it is. *)
Lemma LimitMiddleware_frame now st w r t2 :
  wf st -> from t2 r = false ->
  limiterOf t2 (fst (LimitMiddleware now st w r)) = limiterOf t2 st.
Proof.
  intros Hwf Hfrom.
  destruct (LimitMiddleware_cases r) as [H | (c & n & m & Hc & Hd)];
    [rewrite H; reflexivity |].
  destruct (LimitMiddleware_checked now st w r c n m Hwf Hc Hd) as (st' & -> & _ & H & _).
  apply H. unfold from in Hfrom. rewrite Hc in Hfrom.
  apply String.eqb_neq. assumption.
Qed.

(** What a request does to a token's limiter depends on that limiter and
    on the configuration only. *)
Lemma LimitMiddleware_view now st1 st2 w r t2 :
  wf st1 -> wf st2 ->
  rate (rl st1) = rate (rl st2) -> burst (rl st1) = burst (rl st2) ->
  limiterOf t2 st1 = limiterOf t2 st2 ->
  limiterOf t2 (fst (LimitMiddleware now st1 w r))
  = limiterOf t2 (fst (LimitMiddleware now st2 w r)).
Proof.
  intros Hwf1 Hwf2 Hrate Hburst Hview.
  destruct (from t2 r) eqn:Hfrom.
  - destruct (LimitMiddleware_cases r) as [H | (c & n & m & Hc & Hd)];
      [rewrite !H; assumption |].
    assert (Ht : http.Value c = t2).
    { unfold from in Hfrom. rewrite Hc in Hfrom. apply String.eqb_eq. assumption. }
    subst t2.
    destruct (LimitMiddleware_checked now st1 w r c n m Hwf1 Hc Hd) as (s1 & E1 & O1 & _).
    destruct (LimitMiddleware_checked now st2 w r c n m Hwf2 Hc Hd) as (s2 & E2 & O2 & _).
    rewrite E1, E2. cbn [fst]. rewrite O1, O2.
    unfold bucketOf. rewrite Hview, Hrate, Hburst. reflexivity.
  - rewrite !LimitMiddleware_frame by assumption. assumption.
Qed.

Lemma serve_wf evs : forall st, wf st -> wf (serve evs st).
Proof.
  induction evs as [| [now r] evs IH]; intros st Hwf; [assumption |].
  simpl. apply IH, LimitMiddleware_wf, Hwf.
Qed.

Lemma exhausted_store_wf : wf exhausted_store.
Proof. apply serve_wf, wf_main_store. Qed.

(** Requests left out of a run, none of them of the token, do not show in
    the token's limiter. *)
Lemma serve_view t2 (keep : Z * http.Request -> bool) :
  (forall e, keep e = false -> from t2 (snd e) = false) ->
  forall evs st1 st2,
    wf st1 -> wf st2 ->
    rate (rl st1) = rate (rl st2) -> burst (rl st1) = burst (rl st2) ->
    limiterOf t2 st1 = limiterOf t2 st2 ->
    limiterOf t2 (serve evs st1) = limiterOf t2 (serve (List.filter keep evs) st2).
Proof.
  intros Hkeep. induction evs as [| [now r] evs IH];
    intros st1 st2 Hwf1 Hwf2 Hrate Hburst Hview; [assumption |].
  pose proof (LimitMiddleware_config now st1 http.NewResponseWriter r Hwf1) as [Hr1 Hb1].
  cbn [serve List.filter].
  destruct (keep (now, r)) eqn:Hk.
  - pose proof (LimitMiddleware_config now st2 http.NewResponseWriter r Hwf2) as [Hr2 Hb2].
    cbn [serve]. apply IH.
    + apply LimitMiddleware_wf, Hwf1.
    + apply LimitMiddleware_wf, Hwf2.
    + congruence.
    + congruence.
    + apply LimitMiddleware_view; assumption.
  - apply IH.
    + apply LimitMiddleware_wf, Hwf1.
    + assumption.
    + congruence.
    + congruence.
    + rewrite LimitMiddleware_frame; [assumption | assumption |].
      apply (Hkeep (now, r) Hk).
Qed.

End Handler.

(** The scenario of the spec: the identity [abc] sends [{"max_age":0}]
    16 times at one instant and then [{"max_age":5}].  The first 15
    requests are forwarded as they came, the 16th is answered with
    [RLPayload] as [application/json], the 17th is forwarded. *)
Lemma end_to_end_scenario :
  outcomes (repeat (1000, request token_abc (body_max_age "0")) 16
            ++ [(1000, request token_abc (body_max_age "5"))]) main_store
  = repeat (Forwarded http.NewResponseWriter (request token_abc (body_max_age "0"))) 15
    ++ [ Responded (http.Write (bytes_of RLPayload)
                      (http.Header_Set "Content-Type" "application/json"
                         http.NewResponseWriter));
         Forwarded http.NewResponseWriter (request token_abc (body_max_age "5")) ].
Proof. vm_compute. reflexivity. Qed.

(** * The claims *)

(** C1 (as stated, refuted).  At time 1000, on the store [main] starts
    from, the request of identity [abc] with the body [{"max_age":5}] is
    forwarded, but the limiter of [abc] then shows 14 tokens where the
    refill alone gives 15: the override does not spare the bucket. *)
Lemma override_spares_bucket_fails :
  ~ override_spares_bucket 1000 main_store (request token_abc (body_max_age "5")).
Proof.
  intros H.
  assert (Hd : json.Decode (http.Body (request token_abc (body_max_age "5")))
               = (13%nat, json.Decoded 5 None)) by (vm_compute; reflexivity).
  specialize (H cookie_abc 13%nat 5 eq_refl Hd ltac:(lia)) as [_ H].
  vm_compute in H. discriminate.
Qed.

(** C1 (amended).  A request that carries a [remember_token] cookie and a
    body that decodes with [max_age] other than 0 is forwarded whatever
    the state of the bucket, with the bytes the decoder read as its body.
    The check has run [Allow] on the bucket of the identity all the same:
    when the call succeeded the bucket holds the refilled credit less one
    token, and when it failed the bucket holds the credit it held. *)
Theorem override_admits_and_charges now st w r c n m :
  wf st ->
  http.Request_Cookie r "remember_token" = Some c ->
  json.Decode (http.Body r) = (n, json.Decoded m None) ->
  m <> 0 ->
  let lim := bucketOf (http.Value c) st in
  exists st',
    LimitMiddleware now st w r
    = (st', Forwarded w (http.set_Body (take n (http.Body r)) r)) /\
    limiterOf (http.Value c) st' = Some (snd (xrate.Allow lim now)) /\
    (fst (xrate.Allow lim now) = true ->
     xrate.tokens (snd (xrate.Allow lim now)) = tokensAt now lim - xrate.limit lim) /\
    (fst (xrate.Allow lim now) = false ->
     xrate.tokens (snd (xrate.Allow lim now)) = xrate.tokens lim).
Proof.
  intros Hwf Hc Hd Hm lim.
  destruct (LimitMiddleware_checked now st w r c n m Hwf Hc Hd) as (st' & Heq & Hown & _).
  exists st'. fold lim in Heq, Hown.
  destruct (Z.eqb_spec m 0) as [| _]; [contradiction |].
  rewrite andb_false_r in Heq.
  repeat split; try assumption.
  - rewrite Allow_eq. unfold tokensAt.
    destruct ((1 <=? xrate.burst lim) && (xrate.limit lim <=? xrate.advance lim now));
      cbn [fst snd xrate.tokens]; [reflexivity | discriminate].
  - rewrite Allow_eq.
    destruct ((1 <=? xrate.burst lim) && (xrate.limit lim <=? xrate.advance lim now));
      cbn [fst snd xrate.tokens]; [discriminate | reflexivity].
Qed.

Lemma override_admits_and_charges_witness :
  exists st',
    LimitMiddleware 1000 exhausted_store http.NewResponseWriter
      (request token_abc (body_max_age "5"))
    = (st', Forwarded http.NewResponseWriter
              (http.set_Body (take 13 (http.Body (request token_abc (body_max_age "5"))))
                 (request token_abc (body_max_age "5")))) /\
    limiterOf "abc" st' = Some (snd (xrate.Allow (bucketOf "abc" exhausted_store) 1000)) /\
    (fst (xrate.Allow (bucketOf "abc" exhausted_store) 1000) = true ->
     xrate.tokens (snd (xrate.Allow (bucketOf "abc" exhausted_store) 1000))
     = tokensAt 1000 (bucketOf "abc" exhausted_store)
       - xrate.limit (bucketOf "abc" exhausted_store)) /\
    (fst (xrate.Allow (bucketOf "abc" exhausted_store) 1000) = false ->
     xrate.tokens (snd (xrate.Allow (bucketOf "abc" exhausted_store) 1000))
     = xrate.tokens (bucketOf "abc" exhausted_store)).
Proof.
  apply (override_admits_and_charges 1000 exhausted_store http.NewResponseWriter
           (request token_abc (body_max_age "5")) cookie_abc 13 5).
  - apply exhausted_store_wf.
  - reflexivity.
  - vm_compute; reflexivity.
  - lia.
Defined.

(** C2 (the code at the failing input).  The request of identity [abc]
    whose body is [{"max_age":1}] followed by 600 spaces, 613 bytes, is
    forwarded with the first 512 bytes of its body only: the bytes the
    decoder had read when the value was complete. *)
Theorem forwarded_body_truncated :
  let r := request token_abc (body_max_age "1" +:+ spaces 600) in
  exists st' w r',
    LimitMiddleware 0 main_store http.NewResponseWriter r = (st', Forwarded w r') /\
    length (http.Body r) = 613%nat /\
    http.Body r' = take 512 (http.Body r) /\
    http.Body r' <> http.Body r.
Proof.
  intros r.
  assert (Hd : json.Decode (http.Body r) = (512%nat, json.Decoded 1 None))
    by (vm_compute; reflexivity).
  destruct (LimitMiddleware_checked 0 main_store http.NewResponseWriter r cookie_abc
              512 1 wf_main_store eq_refl Hd) as (st' & Heq & _).
  cbn [Z.eqb andb] in Heq. rewrite andb_false_r in Heq.
  exists st', http.NewResponseWriter, (http.set_Body (take 512 (http.Body r)) r).
  split; [assumption |]. split; [vm_compute; reflexivity |]. split; [reflexivity |].
  intros H. apply (f_equal (@length _)) in H. vm_compute in H. discriminate.
Qed.

(** C3.  A new limiter of one token per minute and burst 15, asked 16
    times at one and the same time, grants the first 15 calls and refuses
    the 16th; and for calls at times in order, the acquisitions granted
    inside any window of one minute are at most 15 + 1, the burst and
    the refill of the window. *)
Theorem token_bucket_burst_and_window :
  (forall t,
     map snd (xrate.run (xrate.NewLimiter (xrate.Every time.Minute) 15) (repeat t 16))
     = repeat true 15 ++ [false]) /\
  (forall ts lo,
     StronglySorted Z.le ts ->
     xrate.successes_in lo (lo + time.Minute)
       (xrate.run (xrate.NewLimiter (xrate.Every time.Minute) 15) ts)
     <= 15 + 1).
Proof.
  split.
  - intros t. change (repeat t 16) with (t :: repeat t 15).
    rewrite run_cons, Allow_NewLimiter by (vm_compute; intuition congruence).
    cbn [fst snd map]. rewrite (run_at_last 14); [reflexivity | | | |]; cbn.
    + reflexivity.
    + reflexivity.
    + reflexivity.
    + lia.
  - intros ts lo Hs.
    pose proof (successes_window lo (lo + time.Minute) ts
                  (xrate.NewLimiter (xrate.Every time.Minute) 15)) as H.
    assert (Hmin : time.Minute = 60000000000) by reflexivity.
    unfold xrate.NewLimiter, xrate.Every, bucket_inv in *.
    cbn [xrate.limit xrate.burst xrate.tokens] in H.
    rewrite Hmin in *.
    specialize (H ltac:(lia) ltac:(lia) Hs). lia.
Qed.

Lemma token_bucket_burst_and_window_witness :
  StronglySorted Z.le [0; 0; 7; 60000000000] /\
  xrate.successes_in 0 (0 + time.Minute)
    (xrate.run (xrate.NewLimiter (xrate.Every time.Minute) 15) [0; 0; 7; 60000000000])
  <= 15 + 1.
Proof.
  assert (Hs : StronglySorted Z.le [0; 0; 7; 60000000000])
    by (repeat constructor; lia).
  split; [exact Hs |].
  apply (proj2 token_bucket_burst_and_window [0; 0; 7; 60000000000] 0 Hs).
Defined.

(** C4.  [GetLimiter] returns the pointer the registry holds for the
    token and changes nothing when there is one; otherwise it allocates a
    new limiter with the rate and burst of the registry at a fresh
    address, enters it under the token and returns it.  Hence, whatever
    lookups and [Allow] calls follow until the next flush, [GetLimiter]
    on the token returns that same pointer and creates nothing. *)
Theorem GetLimiter_once_per_epoch token st :
  (forall p, limiters (rl st) !! token = Some p -> GetLimiter token st = (p, st)) /\
  (limiters (rl st) !! token = None ->
   heap st !! length (heap st) = None /\
   GetLimiter token st =
   (length (heap st),
    {| heap := heap st ++ [xrate.NewLimiter (rate (rl st)) (burst (rl st))];
       rl := {| limiters := <[token := length (heap st)]> (limiters (rl st));
                rate := rate (rl st); burst := burst (rl st) |} |})) /\
  (forall st', epoch (snd (GetLimiter token st)) st' ->
               GetLimiter token st' = (fst (GetLimiter token st), st')).
Proof.
  repeat split.
  - apply GetLimiter_found.
  - apply lookup_ge_None_2. lia.
  - apply GetLimiter_new. assumption.
  - intros st' He. apply GetLimiter_found.
    eapply epoch_lookup; [eassumption | apply GetLimiter_registered].
Qed.

Lemma GetLimiter_once_per_epoch_witness :
  GetLimiter "abc" (snd (GetLimiter "xyz" (snd (GetLimiter "abc" main_store))))
  = (fst (GetLimiter "abc" main_store),
     snd (GetLimiter "xyz" (snd (GetLimiter "abc" main_store)))).
Proof.
  apply (proj2 (proj2 (GetLimiter_once_per_epoch "abc" main_store))).
  eapply epoch_next; [apply step_GetLimiter | apply epoch_refl].
Defined.

(** C6.  When the request carries the cookie, its body decodes with
    [max_age] equal to 0 and [Allow] on the bucket of the identity
    returns false, the handler sets [Content-Type: application/json],
    writes exactly [RLPayload], calls no [WriteHeader] (so the status is
    200 on a new writer) and returns without calling [next].  [RLPayload]
    is the text spelled out below, [q] being the double quote and [nl]
    the line feed: the JSON object whose member [job] holds the error
    message and the status 4. *)
Theorem rate_limited_response now st w r c n :
  wf st ->
  http.Request_Cookie r "remember_token" = Some c ->
  json.Decode (http.Body r) = (n, json.Decoded 0 None) ->
  fst (xrate.Allow (bucketOf (http.Value c) st) now) = false ->
  let q := String "034"%char EmptyString in
  let nl := String "010"%char EmptyString in
  let payload :=
    "{" +:+ nl +:+
    "    " +:+ q +:+ "job" +:+ q +:+ ": {" +:+ nl +:+
    "        " +:+ q +:+ "error" +:+ q +:+ ": " +:+ q
      +:+ "You have reached the request limit. Please try again later" +:+ q
      +:+ "," +:+ nl +:+
    "        " +:+ q +:+ "status" +:+ q +:+ ": 4" +:+ nl +:+
    "    }" +:+ nl +:+
    "}" in
  RLPayload = payload /\
  exists st' w',
    LimitMiddleware now st w r = (st', Responded w') /\
    http.header w' !! "Content-Type" = Some ["application/json"] /\
    http.written w' = http.written w ++ bytes_of payload /\
    http.wroteHeader w' = http.wroteHeader w /\
    (w = http.NewResponseWriter ->
     http.written w' = bytes_of payload /\ http.status w' = 200).
Proof.
  intros Hwf Hc Hd Hno q nl payload.
  assert (Hpay : RLPayload = payload) by reflexivity.
  split; [exact Hpay |].
  destruct (LimitMiddleware_checked now st w r c n 0 Hwf Hc Hd) as (st' & Heq & _).
  rewrite Hno in Heq. cbn [negb andb Z.eqb] in Heq.
  exists st', (http.Write (bytes_of RLPayload)
                 (http.Header_Set "Content-Type" "application/json" w)).
  split; [assumption |]. split; [apply lookup_insert_eq |].
  rewrite <- Hpay.
  split; [reflexivity |]. split; [reflexivity |].
  intros ->. split; reflexivity.
Qed.

Lemma rate_limited_response_witness :
  let q := String "034"%char EmptyString in
  let nl := String "010"%char EmptyString in
  let payload :=
    "{" +:+ nl +:+
    "    " +:+ q +:+ "job" +:+ q +:+ ": {" +:+ nl +:+
    "        " +:+ q +:+ "error" +:+ q +:+ ": " +:+ q
      +:+ "You have reached the request limit. Please try again later" +:+ q
      +:+ "," +:+ nl +:+
    "        " +:+ q +:+ "status" +:+ q +:+ ": 4" +:+ nl +:+
    "    }" +:+ nl +:+
    "}" in
  RLPayload = payload /\
  exists st' w',
    LimitMiddleware 1000 exhausted_store http.NewResponseWriter
      (request token_abc (body_max_age "0")) = (st', Responded w') /\
    http.header w' !! "Content-Type" = Some ["application/json"] /\
    http.written w' = http.written http.NewResponseWriter ++ bytes_of payload /\
    http.wroteHeader w' = http.wroteHeader http.NewResponseWriter /\
    (http.NewResponseWriter = http.NewResponseWriter ->
     http.written w' = bytes_of payload /\ http.status w' = 200).
Proof.
  apply (rate_limited_response 1000 exhausted_store http.NewResponseWriter
           (request token_abc (body_max_age "0")) cookie_abc 13).
  - apply exhausted_store_wf.
  - reflexivity.
  - vm_compute; reflexivity.
  - vm_compute; reflexivity.
Defined.

(** C7.  For two distinct identities, a request of the first leaves the
    limiter of the second as it is; and after any run of requests the
    limiter of the second is the one it would be had the requests of the
    first not been sent. *)
Theorem identities_isolated t1 t2 st :
  wf st -> t1 <> t2 ->
  (forall now w r,
     from t1 r = true ->
     limiterOf t2 (fst (LimitMiddleware now st w r)) = limiterOf t2 st) /\
  (forall evs,
     limiterOf t2 (serve evs st)
     = limiterOf t2 (serve (List.filter (fun e => negb (from t1 (snd e))) evs) st)).
Proof.
  intros Hwf Hne.
  assert (Hother : forall r, from t1 r = true -> from t2 r = false).
  { intros r. unfold from.
    destruct (http.Request_Cookie r "remember_token") as [c |]; [| discriminate].
    intros H1. apply String.eqb_eq in H1. apply String.eqb_neq. congruence. }
  split.
  - intros now w r Hfrom. apply LimitMiddleware_frame; auto.
  - intros evs. apply serve_view; try assumption; try reflexivity.
    intros e He. apply Hother. destruct (from t1 (snd e)); [reflexivity | discriminate].
Qed.

Lemma identities_isolated_witness :
  limiterOf "xyz"
    (serve ((1000, request token_xyz (body_max_age "0"))
            :: repeat (1000, request token_abc (body_max_age "0")) 16
            ++ [(2000, request token_xyz (body_max_age "0"))]) main_store)
  = limiterOf "xyz"
      (serve (List.filter (fun e => negb (from "abc" (snd e)))
                ((1000, request token_xyz (body_max_age "0"))
                 :: repeat (1000, request token_abc (body_max_age "0")) 16
                 ++ [(2000, request token_xyz (body_max_age "0"))])) main_store).
Proof.
  assert (Hne : "abc" <> "xyz") by discriminate.
  exact (proj2 (identities_isolated "abc" "xyz" main_store wf_main_store Hne) _).
Defined.

(** C8.  A request without a [remember_token] cookie is answered with
    exactly [No cookie found]: the handler writes these bytes, calls no
    [WriteHeader] (so the status is 200 on a new writer), leaves the
    header and the store as they are and returns without calling
    [next]. *)
Theorem no_cookie_response now st w r :
  http.Request_Cookie r "remember_token" = None ->
  exists w',
    LimitMiddleware now st w r = (st, Responded w') /\
    http.written w' = http.written w ++ bytes_of "No cookie found" /\
    http.wroteHeader w' = http.wroteHeader w /\
    http.header w' = http.header w /\
    (w = http.NewResponseWriter ->
     http.written w' = bytes_of "No cookie found" /\ http.status w' = 200).
Proof.
  intros Hc. exists (http.Write (bytes_of "No cookie found") w).
  split; [apply LimitMiddleware_no_cookie, Hc |].
  split; [reflexivity |]. split; [reflexivity |]. split; [reflexivity |].
  intros ->. split; reflexivity.
Qed.

Lemma no_cookie_response_witness :
  exists w',
    LimitMiddleware 1000 main_store http.NewResponseWriter
      (request [] (body_max_age "0")) = (main_store, Responded w') /\
    http.written w' = http.written http.NewResponseWriter ++ bytes_of "No cookie found" /\
    http.wroteHeader w' = http.wroteHeader http.NewResponseWriter /\
    http.header w' = http.header http.NewResponseWriter /\
    (http.NewResponseWriter = http.NewResponseWriter ->
     http.written w' = bytes_of "No cookie found" /\ http.status w' = 200).
Proof.
  apply (no_cookie_response 1000 main_store http.NewResponseWriter
           (request [] (body_max_age "0"))).
  reflexivity.
Defined.

(** C9.  When the request carries the cookie and the decoding of its body
    returns an error, the handler writes exactly
    [Error parsing request body] followed by the text of the error, calls
    no [WriteHeader], leaves the header and the store as they are and
    returns without calling [next]. *)
Theorem parse_error_response now st w r c n m e :
  http.Request_Cookie r "remember_token" = Some c ->
  json.Decode (http.Body r) = (n, json.Decoded m (Some e)) ->
  exists w',
    LimitMiddleware now st w r = (st, Responded w') /\
    http.written w'
    = http.written w ++ bytes_of ("Error parsing request body" +:+ Error e) /\
    http.wroteHeader w' = http.wroteHeader w /\
    http.header w' = http.header w /\
    (w = http.NewResponseWriter ->
     http.written w' = bytes_of ("Error parsing request body" +:+ Error e) /\
     http.status w' = 200).
Proof.
  intros Hc Hd.
  exists (http.Write (bytes_of ("Error parsing request body" +:+ Error e)) w).
  split; [eapply LimitMiddleware_parse_error; eassumption |].
  split; [reflexivity |]. split; [reflexivity |]. split; [reflexivity |].
  intros ->. split; reflexivity.
Qed.

Lemma parse_error_response_witness :
  exists w',
    LimitMiddleware 1000 main_store http.NewResponseWriter
      (request token_abc "{") = (main_store, Responded w') /\
    http.written w'
    = http.written http.NewResponseWriter
      ++ bytes_of ("Error parsing request body" +:+ Error io_ErrUnexpectedEOF) /\
    http.wroteHeader w' = http.wroteHeader http.NewResponseWriter /\
    http.header w' = http.header http.NewResponseWriter /\
    (http.NewResponseWriter = http.NewResponseWriter ->
     http.written w'
     = bytes_of ("Error parsing request body" +:+ Error io_ErrUnexpectedEOF) /\
     http.status w' = 200).
Proof.
  apply (parse_error_response 1000 main_store http.NewResponseWriter
           (request token_abc "{") cookie_abc 1 0 io_ErrUnexpectedEOF).
  - reflexivity.
  - vm_compute; reflexivity.
Defined.

(** C10.  A request rejected before the rate-limit check, for want of
    the cookie or because its body does not decode, leaves the store as
    it is: the heap of limiters and the registry are unchanged, and
    [next] is not called.  A request with an empty body is such a
    request: its decoding returns [io.EOF], so with the cookie it is
    answered [Error parsing request bodyEOF] and no limiter is made for
    it. *)
Theorem early_rejection_keeps_registry now st w r :
  (http.Request_Cookie r "remember_token" = None \/
   (exists n m e, json.Decode (http.Body r) = (n, json.Decoded m (Some e))) ->
   fst (LimitMiddleware now st w r) = st /\
   exists w', snd (LimitMiddleware now st w r) = Responded w') /\
  (http.Body r = [] ->
   json.Decode (http.Body r) = (0%nat, json.Decoded 0 (Some io_EOF)) /\
   fst (LimitMiddleware now st w r) = st /\
   (exists w', snd (LimitMiddleware now st w r) = Responded w') /\
   (forall c, http.Request_Cookie r "remember_token" = Some c ->
              LimitMiddleware now st w r
              = (st, Responded
                       (http.Write (bytes_of "Error parsing request bodyEOF") w)))).
Proof.
  assert (Hrej : http.Request_Cookie r "remember_token" = None \/
                 (exists n m e, json.Decode (http.Body r) = (n, json.Decoded m (Some e))) ->
                 fst (LimitMiddleware now st w r) = st /\
                 exists w', snd (LimitMiddleware now st w r) = Responded w').
  { intros [Hc | (n & m & e & Hd)].
    - rewrite (LimitMiddleware_no_cookie now st w r Hc). simpl. eauto.
    - destruct (http.Request_Cookie r "remember_token") as [c |] eqn:Hc.
      + rewrite (LimitMiddleware_parse_error now st w r c n m e Hc Hd). simpl. eauto.
      + rewrite (LimitMiddleware_no_cookie now st w r Hc). simpl. eauto. }
  split; [exact Hrej |].
  intros Hb.
  assert (Hd : json.Decode (http.Body r) = (0%nat, json.Decoded 0 (Some io_EOF)))
    by (rewrite Hb; reflexivity).
  split; [exact Hd |].
  destruct Hrej as [Hst Hw]; [right; eauto |].
  split; [exact Hst |]. split; [exact Hw |].
  intros c Hc. apply (LimitMiddleware_parse_error now st w r c 0 0 io_EOF Hc Hd).
Qed.

Lemma early_rejection_keeps_registry_witness :
  fst (LimitMiddleware 1000 exhausted_store http.NewResponseWriter (request token_abc EmptyString))
  = exhausted_store /\
  LimitMiddleware 1000 exhausted_store http.NewResponseWriter (request token_abc EmptyString)
  = (exhausted_store,
     Responded (http.Write (bytes_of "Error parsing request bodyEOF") http.NewResponseWriter)).
Proof.
  pose proof (proj2 (early_rejection_keeps_registry 1000 exhausted_store
                       http.NewResponseWriter (request token_abc EmptyString)) eq_refl)
    as (_ & Hst & _ & Hall).
  split; [exact Hst |].
  exact (Hall cookie_abc eq_refl).
Defined.

(** * Further properties of the registry and of the handler *)

Section Invariants.

Implicit Types (st : Store) (token : string) (p : nat).

(** The store a call of the handler leaves is reached by the operations of
    an epoch: a [GetLimiter] and an [Allow], or none. *)
Lemma LimitMiddleware_epoch now st w r : epoch st (fst (LimitMiddleware now st w r)).
Proof.
  unfold LimitMiddleware.
  destruct (http.Request_Cookie r "remember_token") as [c |]; [| apply epoch_refl].
  destruct (json.Decode (http.Body r)) as [n [m [e |] |]]; try apply epoch_refl.
  pose proof (step_GetLimiter (http.Value c) st) as HG.
  destruct (GetLimiter (http.Value c) st) as [p st1]. cbn [snd] in HG.
  destruct (Allow p now st1) as [[ok st2] |] eqn:HA.
  - apply epoch_next with st1; [assumption |].
    apply epoch_next with st2; [eapply step_Allow; eassumption |].
    destruct (negb ok && (m =? 0)); apply epoch_refl.
  - apply epoch_next with st1; [assumption | apply epoch_refl].
Qed.

Lemma epoch_trans st1 st2 st3 : epoch st1 st2 -> epoch st2 st3 -> epoch st1 st3.
Proof.
  induction 1 as [| a b c Hstep _ IH]; [auto |].
  intros H. eapply epoch_next; [eassumption | auto].
Qed.

Lemma serve_epoch evs : forall st, epoch st (serve evs st).
Proof.
  induction evs as [| [now r] evs IH]; intros st; [apply epoch_refl |].
  simpl. eapply epoch_trans; [apply LimitMiddleware_epoch | apply IH].
Qed.

(** What every operation of an epoch keeps, the whole epoch keeps. *)
Lemma epoch_keeps (P : Store -> Prop) :
  (forall st st', epoch_step st st' -> P st -> P st') ->
  forall st st', epoch st st' -> P st -> P st'.
Proof. intros Hstep st st' He. induction He; eauto. Qed.

Lemma epoch_step_wf st st' : epoch_step st st' -> wf st -> wf st'.
Proof.
  intros [token s | p now s ok s' HA] Hwf.
  - apply GetLimiter_wf, Hwf.
  - eapply Allow_wf; eassumption.
Qed.

Lemma process_wf evs : forall st, wf st -> wf (process evs st).
Proof.
  induction evs as [| [now r |] evs IH]; intros st Hwf; simpl.
  - assumption.
  - apply IH, LimitMiddleware_wf, Hwf.
  - apply IH, Flusher_tick_wf.
Qed.

Lemma new_store_wf r b : wf (new_store r b).
Proof.
  split; simpl; intros; match goal with H : ∅ !! _ = Some _ |- _ =>
    rewrite lookup_empty in H; discriminate end.
Qed.

Lemma epoch_step_config st st' :
  epoch_step st st' -> rate (rl st') = rate (rl st) /\ burst (rl st') = burst (rl st).
Proof.
  intros [token s | p now s ok s' HA].
  - apply GetLimiter_config.
  - rewrite (Allow_rl _ _ _ _ _ HA). auto.
Qed.

Lemma epoch_step_limiters_ok r b st st' :
  0 < r -> 0 <= b ->
  epoch_step st st' ->
  rate (rl st) = r /\ burst (rl st) = b /\ limiters_ok r b st ->
  rate (rl st') = r /\ burst (rl st') = b /\ limiters_ok r b st'.
Proof.
  intros Hr Hb Hstep (Hrate & Hburst & Hok).
  destruct (epoch_step_config _ _ Hstep) as [Hr' Hb'].
  split; [congruence |]. split; [congruence |].
  unfold limiters_ok in *.
  destruct Hstep as [token s | p now s ok s' HA].
  - unfold GetLimiter. destruct (limiters (rl s) !! token); simpl; [assumption |].
    apply Forall_app. split; [assumption |].
    constructor; [| constructor].
    unfold xrate.NewLimiter. simpl. rewrite Hrate, Hburst. repeat split; nia.
  - revert HA. unfold Allow. destruct (heap s !! p) as [lim |] eqn:Hp; [| discriminate].
    destruct (xrate.Allow lim now) as [o lim'] eqn:HAl. intros [= _ <-]. simpl.
    apply Forall_insert; [assumption |].
    assert (Hlim : xrate.limit lim = r /\ xrate.burst lim = b /\
                   0 <= xrate.tokens lim <= b * r).
    { eapply (proj1 (Forall_lookup _ _) Hok); eassumption. }
    destruct Hlim as (Hl & Hbu & Ht).
    pose proof (advance_le_cap lim now) as Hcap. rewrite Hl, Hbu in Hcap.
    replace lim' with (snd (xrate.Allow lim now)) by (rewrite HAl; reflexivity).
    rewrite Allow_eq.
    destruct (Z.leb_spec 1 (xrate.burst lim)),
             (Z.leb_spec (xrate.limit lim) (xrate.advance lim now));
      cbn [andb snd xrate.limit xrate.burst xrate.tokens]; repeat split; lia.
Qed.

Lemma process_limiters_ok r b evs : forall st,
  0 < r -> 0 <= b ->
  rate (rl st) = r /\ burst (rl st) = b /\ limiters_ok r b st ->
  rate (rl (process evs st)) = r /\ burst (rl (process evs st)) = b /\
  limiters_ok r b (process evs st).
Proof.
  induction evs as [| [now w |] evs IH]; intros st Hr Hb Hinv; simpl.
  - assumption.
  - apply IH; try assumption.
    eapply (epoch_keeps (fun s => rate (rl s) = r /\ burst (rl s) = b /\ limiters_ok r b s)).
    + intros s s' Hs. apply epoch_step_limiters_ok; assumption.
    + apply LimitMiddleware_epoch.
    + assumption.
  - apply IH; assumption.
Qed.

(** An epoch allocates above what was allocated before it, and keeps the
    pointers of the registry above a bound they were above. *)
Lemma epoch_above (n : nat) st st' :
  epoch st st' ->
  (n <= length (heap st))%nat /\
  (forall token p, limiters (rl st) !! token = Some p -> (n <= p)%nat) ->
  (n <= length (heap st'))%nat /\
  (forall token p, limiters (rl st') !! token = Some p -> (n <= p)%nat).
Proof.
  apply (epoch_keeps (fun s => (n <= length (heap s))%nat /\
           (forall token p, limiters (rl s) !! token = Some p -> (n <= p)%nat))).
  clear st st'. intros st st' [token s | p now s ok s' HA] [Hlen Hreg].
  - unfold GetLimiter. destruct (limiters (rl s) !! token) eqn:Hl; simpl; [auto |].
    split; [rewrite length_app; lia |].
    intros t q Hq. destruct (decide (token = t)) as [<- | Hne].
    + rewrite lookup_insert_eq in Hq. injection Hq as <-. assumption.
    + rewrite lookup_insert_ne in Hq by assumption. eauto.
  - rewrite (Allow_length _ _ _ _ _ HA), (Allow_rl _ _ _ _ _ HA). auto.
Qed.

End Invariants.

(** X1.  From the start of the process on, through any requests and any
    ticks of the flusher, every pointer the registry holds leads to a
    limiter of the heap and no two tokens hold the same pointer. *)
Theorem registry_always_well_formed r b evs :
  let st := process evs (new_store r b) in
  (forall token p, limiters (rl st) !! token = Some p -> is_Some (heap st !! p)) /\
  (forall t1 t2 p, limiters (rl st) !! t1 = Some p -> limiters (rl st) !! t2 = Some p ->
                   t1 = t2).
Proof.
  intros st. destruct (process_wf evs (new_store r b) (new_store_wf r b)) as [Hin Hinj].
  split; [| exact Hinj].
  intros token p Hp. apply lookup_lt_is_Some_2. eapply Hin; eassumption.
Qed.

(** X2.  With a positive rate and a burst that is not negative, through
    any requests and ticks the registry keeps the rate and burst it was
    built with, every limiter it ever made has that rate and burst, and
    no limiter holds less than nothing or more than its burst. *)
Theorem limiters_stay_within_burst r b evs :
  0 < r -> 0 <= b ->
  let st := process evs (new_store r b) in
  rate (rl st) = r /\ burst (rl st) = b /\
  forall p lim, heap st !! p = Some lim ->
    xrate.limit lim = r /\ xrate.burst lim = b /\
    0 <= xrate.tokens lim <= b * r.
Proof.
  intros Hr Hb st.
  destruct (process_limiters_ok r b evs (new_store r b) Hr Hb) as (H1 & H2 & H3).
  { repeat split. constructor. }
  split; [exact H1 |]. split; [exact H2 |].
  intros p lim Hp. eapply (proj1 (Forall_lookup _ _) H3); eassumption.
Qed.

Lemma limiters_stay_within_burst_witness :
  let st := process [Serve 1000 (request token_abc (body_max_age "0")); Tick;
                     Serve 2000 (request token_abc (body_max_age "5"))]
              (new_store (xrate.Every time.Minute) 15) in
  rate (rl st) = xrate.Every time.Minute /\ burst (rl st) = 15 /\
  forall p lim, heap st !! p = Some lim ->
    xrate.limit lim = xrate.Every time.Minute /\ xrate.burst lim = 15 /\
    0 <= xrate.tokens lim <= 15 * xrate.Every time.Minute.
Proof.
  apply (limiters_stay_within_burst (xrate.Every time.Minute) 15).
  - reflexivity.
  - discriminate.
Defined.

(** X3.  Two distinct tokens never get the same limiter: the pointers two
    successive [GetLimiter] calls return for them differ. *)
Theorem distinct_tokens_distinct_limiters t1 t2 st :
  wf st -> t1 <> t2 ->
  fst (GetLimiter t2 (snd (GetLimiter t1 st))) <> fst (GetLimiter t1 st).
Proof.
  intros Hwf Hne Heq.
  pose proof (GetLimiter_wf t1 st Hwf) as Hwf1.
  pose proof (GetLimiter_wf t2 _ Hwf1) as [_ Hinj].
  pose proof (GetLimiter_registered t1 st) as H1.
  pose proof (GetLimiter_registered t2 (snd (GetLimiter t1 st))) as H2.
  apply (epoch_step_lookup _ _ _ _ (step_GetLimiter t2 (snd (GetLimiter t1 st)))) in H1.
  rewrite Heq in H2. apply Hne. eapply Hinj; eassumption.
Qed.

Lemma distinct_tokens_distinct_limiters_witness :
  fst (GetLimiter "xyz" (snd (GetLimiter "abc" exhausted_store)))
  <> fst (GetLimiter "abc" exhausted_store).
Proof.
  apply (distinct_tokens_distinct_limiters "abc" "xyz" exhausted_store).
  - apply exhausted_store_wf.
  - discriminate.
Defined.

(** X4.  After a flush, and whatever requests are served next, the
    limiter [GetLimiter] hands out for any token was allocated after the
    flush: none of the limiters that existed before is used again. *)
Theorem flushed_limiters_never_reused st evs token :
  let st' := serve evs (Flusher_tick st) in
  (length (heap st) <= fst (GetLimiter token st'))%nat /\
  (forall p, limiters (rl st') !! token = Some p -> (length (heap st) <= p)%nat).
Proof.
  intros st'.
  destruct (epoch_above (length (heap st)) (Flusher_tick st) st'
              (serve_epoch evs _)) as [Hlen Hreg].
  { split; [reflexivity |]. simpl. intros t p Hp.
    rewrite lookup_empty in Hp. discriminate. }
  split; [| apply Hreg].
  unfold GetLimiter. destruct (limiters (rl st') !! token) as [p |] eqn:Hp; simpl.
  - eapply Hreg; eassumption.
  - assumption.
Qed.

Section Entries.

Implicit Types (st : Store) (w : http.ResponseWriter) (r : http.Request).

(** The registry after a call of the handler: the one [GetLimiter] leaves
    for the token when the request reaches the check, the same
    otherwise. *)
Lemma LimitMiddleware_rl now st w r :
  rl (fst (LimitMiddleware now st w r))
  = match checked_token r with
    | Some token => rl (snd (GetLimiter token st))
    | None => rl st
    end.
Proof.
  unfold LimitMiddleware, checked_token.
  destruct (http.Request_Cookie r "remember_token") as [c |]; [| reflexivity].
  destruct (json.Decode (http.Body r)) as [n [m [e |] |]]; cbn [snd]; try reflexivity.
  destruct (GetLimiter (http.Value c) st) as [p st1]. cbn [snd].
  destruct (Allow p now st1) as [[ok st2] |] eqn:HA; [| reflexivity].
  rewrite <- (Allow_rl _ _ _ _ _ HA).
  destruct (negb ok && (m =? 0)); reflexivity.
Qed.

Lemma GetLimiter_dom token st :
  dom (limiters (rl (snd (GetLimiter token st)))) = dom (limiters (rl st)) ∪ {[token]}.
Proof.
  unfold GetLimiter. destruct (limiters (rl st) !! token) as [p |] eqn:Hl; simpl.
  - apply elem_of_dom_2 in Hl. apply set_eq. intros x.
    rewrite elem_of_union, elem_of_singleton.
    split; [auto | intros [? | ->]; assumption].
  - rewrite dom_insert_L. apply union_comm_L.
Qed.

End Entries.

(** X5.  The registry never evicts an entry and adds one only for a
    request that reaches the check: after any run of requests its keys
    are the keys it had and the cookie values of the requests whose body
    decoded; requests without the cookie or with a body that does not
    decode add none. *)
Theorem registry_keys_after_run evs : forall st,
  dom (limiters (rl (serve evs st)))
  = dom (limiters (rl st)) ∪ list_to_set (omap (fun e => checked_token (snd e)) evs).
Proof.
  induction evs as [| [now r] evs IH]; intros st.
  - simpl. rewrite union_empty_r_L. reflexivity.
  - cbn [serve]. rewrite IH, LimitMiddleware_rl. cbn [omap list_omap snd].
    destruct (checked_token r) as [token |].
    + rewrite GetLimiter_dom. cbn [list_to_set]. rewrite (assoc_L (∪)). reflexivity.
    + reflexivity.
Qed.

Section Reset.

Implicit Types (st : Store) (w : http.ResponseWriter) (r : http.Request).

Lemma same_view_bucketOf st1 st2 token :
  same_view st1 st2 -> bucketOf token st1 = bucketOf token st2.
Proof. intros (Hr & Hb & Hv). unfold bucketOf. rewrite Hr, Hb, Hv. reflexivity. Qed.

(** Two stores that look the same to every token answer a request the
    same way and still look the same afterwards. *)
Lemma LimitMiddleware_same_view now st1 st2 w r :
  wf st1 -> wf st2 -> same_view st1 st2 ->
  snd (LimitMiddleware now st1 w r) = snd (LimitMiddleware now st2 w r) /\
  same_view (fst (LimitMiddleware now st1 w r)) (fst (LimitMiddleware now st2 w r)).
Proof.
  intros Hwf1 Hwf2 Hsame.
  destruct (http.Request_Cookie r "remember_token") as [c |] eqn:Hc.
  2: { rewrite !(LimitMiddleware_no_cookie _ _ _ _ Hc). auto. }
  destruct (json.Decode (http.Body r)) as [n [m [e |] |]] eqn:Hd.
  - rewrite !(LimitMiddleware_parse_error _ _ _ _ _ _ _ _ Hc Hd). auto.
  - destruct (LimitMiddleware_checked now st1 w r c n m Hwf1 Hc Hd)
      as (s1 & E1 & O1 & F1 & _ & R1 & B1).
    destruct (LimitMiddleware_checked now st2 w r c n m Hwf2 Hc Hd)
      as (s2 & E2 & O2 & F2 & _ & R2 & B2).
    rewrite E1, E2. cbn [fst snd].
    rewrite (same_view_bucketOf st1 st2 _ Hsame) in *.
    split; [reflexivity |].
    destruct Hsame as (Hr & Hb & Hv).
    split; [congruence |]. split; [congruence |].
    intros token. destruct (decide (http.Value c = token)) as [<- | Hne].
    + congruence.
    + rewrite F1, F2 by assumption. apply Hv.
  - unfold LimitMiddleware. rewrite Hc, Hd. auto.
Qed.

Lemma outcomes_same_view evs : forall st1 st2,
  wf st1 -> wf st2 -> same_view st1 st2 -> outcomes evs st1 = outcomes evs st2.
Proof.
  induction evs as [| [now r] evs IH]; intros st1 st2 Hwf1 Hwf2 Hsame; [reflexivity |].
  cbn [outcomes].
  pose proof (LimitMiddleware_same_view now st1 st2 http.NewResponseWriter r
                Hwf1 Hwf2 Hsame) as [Ho Hs].
  pose proof (LimitMiddleware_wf now st1 http.NewResponseWriter r Hwf1) as Hw1.
  pose proof (LimitMiddleware_wf now st2 http.NewResponseWriter r Hwf2) as Hw2.
  destruct (LimitMiddleware now st1 http.NewResponseWriter r) as [s1 o1].
  destruct (LimitMiddleware now st2 http.NewResponseWriter r) as [s2 o2].
  cbn [fst snd] in *. subst o2. f_equal. apply IH; assumption.
Qed.

End Reset.

(** X6.  A flush puts the registry back to where the process started:
    whatever the store held, the requests served after a flush get the
    outcomes they would get from a registry just built with the same rate
    and burst. *)
Theorem flush_is_a_fresh_start st evs :
  outcomes evs (Flusher_tick st)
  = outcomes evs (new_store (rate (rl st)) (burst (rl st))).
Proof.
  apply outcomes_same_view.
  - apply Flusher_tick_wf.
  - apply new_store_wf.
  - split; [reflexivity |]. split; [reflexivity |].
    intros token. reflexivity.
Qed.

(** X7.  When the handler calls [next], it hands it the writer it was
    given, with nothing written and no header set, and the request it was
    given with the method, the URI, the headers and the cookies as they
    came; only the body is replaced, by the bytes the decoder read. *)
Theorem forward_passes_request_on now st w r st' w' r' :
  LimitMiddleware now st w r = (st', Forwarded w' r') ->
  w' = w /\
  http.Method r' = http.Method r /\
  http.RequestURI r' = http.RequestURI r /\
  http.Header r' = http.Header r /\
  http.Cookies r' = http.Cookies r /\
  http.Body r' = take (fst (json.Decode (http.Body r))) (http.Body r).
Proof.
  unfold LimitMiddleware.
  destruct (http.Request_Cookie r "remember_token") as [c |]; [| discriminate].
  destruct (json.Decode (http.Body r)) as [n [m [e |] |]]; try discriminate.
  destruct (GetLimiter (http.Value c) st) as [p st1].
  destruct (Allow p now st1) as [[ok st2] |]; [| discriminate].
  destruct (negb ok && (m =? 0)); [discriminate |].
  intros [= _ <- <-]. repeat split.
Qed.

Lemma forward_passes_request_on_witness :
  http.NewResponseWriter = http.NewResponseWriter /\
  http.Method (request token_abc (body_max_age "5")) = "POST" /\
  http.RequestURI (request token_abc (body_max_age "5")) = "/api/query_results" /\
  http.Header (request token_abc (body_max_age "5"))
  = [("Content-Type", "application/json")] /\
  http.Cookies (request token_abc (body_max_age "5")) = token_abc /\
  http.Body (request token_abc (body_max_age "5"))
  = take (fst (json.Decode (http.Body (request token_abc (body_max_age "5")))))
      (http.Body (request token_abc (body_max_age "5"))).
Proof.
  apply (forward_passes_request_on 1000 exhausted_store http.NewResponseWriter
           (request token_abc (body_max_age "5"))
           (fst (LimitMiddleware 1000 exhausted_store http.NewResponseWriter
                   (request token_abc (body_max_age "5"))))
           http.NewResponseWriter (request token_abc (body_max_age "5"))).
  vm_compute. reflexivity.
Defined.

(** X8.  A request that reaches the check and whose bucket grants a token
    is forwarded whatever its [max_age] is, and the bucket of its
    identity then holds the refilled credit less one token, stamped with
    the time of the call. *)
Theorem granted_request_is_forwarded_and_charged now st w r c n m :
  wf st ->
  http.Request_Cookie r "remember_token" = Some c ->
  json.Decode (http.Body r) = (n, json.Decoded m None) ->
  fst (xrate.Allow (bucketOf (http.Value c) st) now) = true ->
  exists st',
    LimitMiddleware now st w r
    = (st', Forwarded w (http.set_Body (take n (http.Body r)) r)) /\
    limiterOf (http.Value c) st'
    = Some {| xrate.limit := xrate.limit (bucketOf (http.Value c) st);
              xrate.burst := xrate.burst (bucketOf (http.Value c) st);
              xrate.tokens := xrate.advance (bucketOf (http.Value c) st) now
                              - xrate.limit (bucketOf (http.Value c) st);
              xrate.last := now |}.
Proof.
  intros Hwf Hc Hd Hok.
  destruct (LimitMiddleware_checked now st w r c n m Hwf Hc Hd) as (st' & Heq & Hown & _).
  exists st'. rewrite Hok in Heq. cbn [negb andb] in Heq.
  split; [exact Heq |].
  rewrite Hown. f_equal. revert Hok. rewrite Allow_eq.
  destruct ((1 <=? xrate.burst _) && (xrate.limit _ <=? xrate.advance _ now));
    cbn [fst snd]; [reflexivity | discriminate].
Qed.

Lemma granted_request_is_forwarded_and_charged_witness :
  exists st',
    LimitMiddleware 1000 main_store http.NewResponseWriter
      (request token_abc (body_max_age "0"))
    = (st', Forwarded http.NewResponseWriter
              (http.set_Body
                 (take 13 (http.Body (request token_abc (body_max_age "0"))))
                 (request token_abc (body_max_age "0")))) /\
    limiterOf "abc" st'
    = Some {| xrate.limit := xrate.limit (bucketOf "abc" main_store);
              xrate.burst := xrate.burst (bucketOf "abc" main_store);
              xrate.tokens := xrate.advance (bucketOf "abc" main_store) 1000
                              - xrate.limit (bucketOf "abc" main_store);
              xrate.last := 1000 |}.
Proof.
  apply (granted_request_is_forwarded_and_charged 1000 main_store http.NewResponseWriter
           (request token_abc (body_max_age "0")) cookie_abc 13 0).
  - apply wf_main_store.
  - reflexivity.
  - vm_compute; reflexivity.
  - vm_compute; reflexivity.
Defined.

(** X9.  A request of a registered identity whose bucket refuses it, at a
    time not before the bucket's last update, leaves the whole store as
    it was, whether it is answered with [RLPayload] or forwarded under an
    override: a refusal costs no token and does not put off the
    refill. *)
Theorem refused_request_leaves_store now st w r c n m lim :
  wf st ->
  http.Request_Cookie r "remember_token" = Some c ->
  json.Decode (http.Body r) = (n, json.Decoded m None) ->
  limiterOf (http.Value c) st = Some lim ->
  xrate.last lim <= now ->
  fst (xrate.Allow lim now) = false ->
  fst (LimitMiddleware now st w r) = st.
Proof.
  intros Hwf Hc Hd Hlim Hlast Hno.
  unfold LimitMiddleware. rewrite Hc, Hd.
  unfold limiterOf in Hlim.
  destruct (limiters (rl st) !! http.Value c) as [p |] eqn:Hp; [| discriminate].
  rewrite (GetLimiter_found _ _ _ Hp), (Allow_some _ _ _ _ Hlim), Hno.
  assert (Hsame : snd (xrate.Allow lim now) = lim).
  { revert Hno. rewrite Allow_eq.
    destruct ((1 <=? xrate.burst lim) && (xrate.limit lim <=? xrate.advance lim now));
      cbn [fst snd]; [discriminate | intros _].
    rewrite Z.min_r by assumption. destruct lim; reflexivity. }
  rewrite Hsame, (list_insert_id _ _ _ Hlim).
  destruct (negb false && (m =? 0)); destruct st; reflexivity.
Qed.

Lemma refused_request_leaves_store_witness :
  fst (LimitMiddleware 2000 exhausted_store http.NewResponseWriter
         (request token_abc (body_max_age "0")))
  = exhausted_store.
Proof.
  apply (refused_request_leaves_store 2000 exhausted_store http.NewResponseWriter
           (request token_abc (body_max_age "0")) cookie_abc 13 0
           {| xrate.limit := 60000000000; xrate.burst := 15;
              xrate.tokens := 0; xrate.last := 1000 |}).
  - apply exhausted_store_wf.
  - reflexivity.
  - vm_compute; reflexivity.
  - vm_compute; reflexivity.
  - simpl; lia.
  - vm_compute; reflexivity.
Defined.

(** X10.  An identity is never kept out for longer than one interval of
    the rate: when the bucket of the identity was last updated at least
    one interval before the call and its burst is at least one, a request
    that reaches the check is forwarded. *)
Theorem request_after_interval_is_forwarded now st w r c n m :
  wf st ->
  http.Request_Cookie r "remember_token" = Some c ->
  json.Decode (http.Body r) = (n, json.Decoded m None) ->
  bucket_inv (bucketOf (http.Value c) st) ->
  1 <= xrate.burst (bucketOf (http.Value c) st) ->
  xrate.last (bucketOf (http.Value c) st) + xrate.limit (bucketOf (http.Value c) st)
  <= now ->
  exists st',
    LimitMiddleware now st w r
    = (st', Forwarded w (http.set_Body (take n (http.Body r)) r)).
Proof.
  intros Hwf Hc Hd (Hl & Hb & Ht) Hburst Hlate.
  destruct (LimitMiddleware_checked now st w r c n m Hwf Hc Hd) as (st' & Heq & _).
  exists st'. rewrite Heq.
  set (lim := bucketOf (http.Value c) st) in *.
  assert (Hok : fst (xrate.Allow lim now) = true).
  { rewrite Allow_eq.
    assert (Ha : xrate.limit lim <= xrate.advance lim now).
    { unfold xrate.advance. zbool; nia. }
    destruct (Z.leb_spec 1 (xrate.burst lim)); [| lia].
    destruct (Z.leb_spec (xrate.limit lim) (xrate.advance lim now)); [| lia].
    reflexivity. }
  rewrite Hok. reflexivity.
Qed.

Lemma request_after_interval_is_forwarded_witness :
  exists st',
    LimitMiddleware 60000001000 exhausted_store http.NewResponseWriter
      (request token_abc (body_max_age "0"))
    = (st', Forwarded http.NewResponseWriter
              (http.set_Body
                 (take 13 (http.Body (request token_abc (body_max_age "0"))))
                 (request token_abc (body_max_age "0")))).
Proof.
  assert (Hb : bucketOf "abc" exhausted_store
               = {| xrate.limit := 60000000000; xrate.burst := 15;
                    xrate.tokens := 0; xrate.last := 1000 |})
    by (vm_compute; reflexivity).
  apply (request_after_interval_is_forwarded 60000001000 exhausted_store
           http.NewResponseWriter (request token_abc (body_max_age "0")) cookie_abc 13 0).
  - apply exhausted_store_wf.
  - reflexivity.
  - vm_compute; reflexivity.
  - change (http.Value cookie_abc) with "abc". rewrite Hb.
    unfold bucket_inv. simpl. lia.
  - change (http.Value cookie_abc) with "abc". rewrite Hb. simpl. lia.
  - change (http.Value cookie_abc) with "abc". rewrite Hb. simpl. lia.
Defined.

Section Throughput.

Variables (lo hi : Z) (token : string).

Implicit Types (st : Store) (r : http.Request) (evs : list (Z * http.Request)).

Lemma forwarded_in_cons now r evs st :
  forwarded_in lo hi token ((now, r) :: evs) st
  = (if from token r && no_override r
        && is_Forwarded (snd (LimitMiddleware now st http.NewResponseWriter r))
        && (lo <=? now) && (now <=? hi)
     then 1 else 0)
    + forwarded_in lo hi token evs (fst (LimitMiddleware now st http.NewResponseWriter r)).
Proof.
  cbn [forwarded_in].
  destruct (LimitMiddleware now st http.NewResponseWriter r); reflexivity.
Qed.

Lemma check_times_cons now r evs :
  check_times token ((now, r) :: evs)
  = if reaches_check_as token r then now :: check_times token evs
    else check_times token evs.
Proof.
  unfold check_times. cbn [List.filter snd].
  destruct (reaches_check_as token r); reflexivity.
Qed.

Lemma check_times_bound (P : Z -> Prop) evs :
  Forall P (map fst evs) -> Forall P (check_times token evs).
Proof.
  induction evs as [| [now r] evs IH]; intros H; [constructor |].
  inversion H as [| ? ? Hnow Hrest]; subst. rewrite check_times_cons.
  destruct (reaches_check_as token r); [constructor |]; auto.
Qed.

Lemma check_times_sorted evs :
  StronglySorted Z.le (map fst evs) -> StronglySorted Z.le (check_times token evs).
Proof.
  induction evs as [| [now r] evs IH]; intros H; [constructor |].
  inversion H as [| ? ? Hs Hall]; subst. rewrite check_times_cons.
  destruct (reaches_check_as token r); [| auto].
  constructor; [auto | apply check_times_bound; assumption].
Qed.

(** The forwarded requests of the token that asked for no override are
    among the calls its bucket granted. *)
Lemma forwarded_le_granted evs : forall st,
  wf st ->
  forwarded_in lo hi token evs st
  <= xrate.successes_in lo hi (xrate.run (bucketOf token st) (check_times token evs)).
Proof.
  induction evs as [| [now r] evs IH]; intros st Hwf; [simpl; lia |].
  rewrite forwarded_in_cons, check_times_cons.
  specialize (IH _ (LimitMiddleware_wf now st http.NewResponseWriter r Hwf)).
  pose proof (LimitMiddleware_config now st http.NewResponseWriter r Hwf) as [Hrate Hburst].
  unfold from, no_override, reaches_check_as, checked_token.
  destruct (http.Request_Cookie r "remember_token") as [c |] eqn:Hc.
  2: { rewrite (LimitMiddleware_no_cookie _ _ _ _ Hc) in *. cbn [fst andb] in *. lia. }
  destruct (json.Decode (http.Body r)) as [n [m [e |] |]] eqn:Hd; cbn [snd].
  - rewrite (LimitMiddleware_parse_error _ _ _ _ _ _ _ _ Hc Hd) in *.
    cbn [fst] in *. rewrite andb_false_r. cbn [andb]. lia.
  - destruct (LimitMiddleware_checked now st http.NewResponseWriter r c n m Hwf Hc Hd)
      as (st' & Heq & Hown & Hframe & _).
    rewrite Heq in *. cbn [fst snd] in *.
    destruct (String.eqb_spec (http.Value c) token) as [<- | Hne].
    + assert (Hb : bucketOf (http.Value c) st'
                   = snd (xrate.Allow (bucketOf (http.Value c) st) now)).
      { unfold bucketOf at 1. rewrite Hown. reflexivity. }
      rewrite Hb in IH. rewrite run_cons, successes_in_cons.
      destruct (fst (xrate.Allow (bucketOf (http.Value c) st) now)), (m =? 0);
        cbn [negb andb is_Forwarded]; zbool; cbn [andb]; lia.
    + assert (Hb : bucketOf token st' = bucketOf token st).
      { unfold bucketOf. rewrite (Hframe token Hne), Hrate, Hburst. reflexivity. }
      rewrite Hb in IH. cbn [andb]. lia.
  - assert (Hst : fst (LimitMiddleware now st http.NewResponseWriter r) = st).
    { unfold LimitMiddleware. rewrite Hc, Hd. reflexivity. }
    rewrite Hst in *. rewrite andb_false_r. cbn [andb]. lia.
Qed.

End Throughput.

(** X11.  The rate limit the handler enforces, from one end to the other:
    in a process whose registry was built with a positive rate and a
    burst that is not negative, and whatever happened before, among
    requests served at times in order and with no flush in between, the
    requests of one identity that ask for no override and are forwarded
    inside a window number at most the burst and the refill of the
    window, whatever the other identities send.  For the registry of
    [main] and a window of one minute that is 16 requests. *)
Theorem forwarded_requests_within_window r b history evs token lo hi :
  0 < r -> 0 <= b -> lo <= hi ->
  StronglySorted Z.le (map fst evs) ->
  forwarded_in lo hi token evs (process history (new_store r b)) * r
  <= b * r + (hi - lo).
Proof.
  intros Hr Hb Hw Hs.
  set (st := process history (new_store r b)).
  assert (Hwf : wf st) by apply process_wf, new_store_wf.
  destruct (process_limiters_ok r b history (new_store r b) Hr Hb)
    as (Hrate & Hburst & Hok).
  { repeat split. constructor. }
  fold st in Hrate, Hburst, Hok.
  assert (Hlim : xrate.limit (bucketOf token st) = r /\
                 xrate.burst (bucketOf token st) = b /\
                 0 <= xrate.tokens (bucketOf token st) <= b * r).
  { unfold bucketOf, limiterOf.
    destruct (limiters (rl st) !! token) as [p |]; simpl.
    - destruct (heap st !! p) as [lim |] eqn:Hp; simpl.
      + eapply (proj1 (Forall_lookup _ _) Hok); eassumption.
      + rewrite Hrate, Hburst. repeat split; nia.
    - rewrite Hrate, Hburst. repeat split; nia. }
  destruct Hlim as (Hl & Hbu & Ht).
  pose proof (forwarded_le_granted lo hi token evs st Hwf) as Hle.
  pose proof (successes_window lo hi (check_times token evs) (bucketOf token st) Hw) as Hwin.
  rewrite Hl, Hbu in Hwin.
  specialize (Hwin ltac:(unfold bucket_inv; lia) (check_times_sorted token evs Hs)).
  nia.
Qed.

Lemma forwarded_requests_within_window_witness :
  forwarded_in 1000 (1000 + time.Minute) "abc"
    (repeat (1000, request token_abc (body_max_age "0")) 16
     ++ [(60000001000, request token_abc (body_max_age "0"));
         (60000001000, request token_abc (body_max_age "0"))])
    (process [Serve 0 (request token_abc (body_max_age "0")); Tick]
       (new_store (xrate.Every time.Minute) 15))
  * xrate.Every time.Minute
  <= 15 * xrate.Every time.Minute + (1000 + time.Minute - 1000).
Proof.
  apply (forwarded_requests_within_window (xrate.Every time.Minute) 15).
  - reflexivity.
  - discriminate.
  - vm_compute; discriminate.
  - vm_compute. repeat constructor; discriminate.
Defined.

(** X12.  A request whose body is at most 512 bytes long, read by the
    decoder in one read, is forwarded exactly as it came: [next] gets the
    very request, body included, and the writer untouched. *)
Theorem short_request_forwarded_intact now st w r st' w' r' :
  (length (http.Body r) <= json.minRead)%nat ->
  LimitMiddleware now st w r = (st', Forwarded w' r') ->
  r' = r /\ w' = w.
Proof.
  intros Hlen. unfold LimitMiddleware.
  destruct (http.Request_Cookie r "remember_token") as [c |]; [| discriminate].
  pose proof (Decode_short_body _ Hlen) as Hn.
  destruct (json.Decode (http.Body r)) as [n [m [e |] |]]; try discriminate.
  destruct (GetLimiter (http.Value c) st) as [p st1].
  destruct (Allow p now st1) as [[ok st2] |]; [| discriminate].
  destruct (negb ok && (m =? 0)); [discriminate |].
  intros [= _ <- <-]. cbn [fst] in Hn. subst n.
  rewrite take_ge by reflexivity. destruct r; auto.
Qed.

Lemma short_request_forwarded_intact_witness :
  request token_abc (body_max_age "5") = request token_abc (body_max_age "5") /\
  http.NewResponseWriter = http.NewResponseWriter.
Proof.
  apply (short_request_forwarded_intact 1000 exhausted_store http.NewResponseWriter
           (request token_abc (body_max_age "5"))
           (fst (LimitMiddleware 1000 exhausted_store http.NewResponseWriter
                   (request token_abc (body_max_age "5"))))).
  - apply Nat.leb_le. vm_compute. reflexivity.
  - vm_compute. reflexivity.
Defined.

(** * The flush, seen by each identity *)

Section AfterFlush.

Implicit Types (st : Store) (token : string) (evs : list (Z * http.Request)).

Lemma serve_config evs : forall st,
  wf st ->
  rate (rl (serve evs st)) = rate (rl st) /\ burst (rl (serve evs st)) = burst (rl st).
Proof.
  induction evs as [| [now r] evs IH]; intros st Hwf; [auto |].
  cbn [serve].
  destruct (IH _ (LimitMiddleware_wf now st http.NewResponseWriter r Hwf)) as [H1 H2].
  destruct (LimitMiddleware_config now st http.NewResponseWriter r Hwf) as [H3 H4].
  split; congruence.
Qed.

(** A request that does not reach the check under a token, because it is
    of another identity or because it is rejected before the check,
    leaves the limiter of the token as it is. *)
Lemma LimitMiddleware_frame_unchecked now st w r token :
  wf st -> reaches_check_as token r = false ->
  limiterOf token (fst (LimitMiddleware now st w r)) = limiterOf token st.
Proof.
  intros Hwf. unfold reaches_check_as, checked_token.
  destruct (http.Request_Cookie r "remember_token") as [c |] eqn:Hc.
  2: { intros _. rewrite (LimitMiddleware_no_cookie _ _ _ _ Hc). reflexivity. }
  destruct (json.Decode (http.Body r)) as [n [m [e |] |]] eqn:Hd; cbn [snd].
  - intros _. rewrite (LimitMiddleware_parse_error _ _ _ _ _ _ _ _ Hc Hd). reflexivity.
  - intros Hne. apply String.eqb_neq in Hne.
    destruct (LimitMiddleware_checked now st w r c n m Hwf Hc Hd) as (st' & -> & _ & H & _).
    apply H. assumption.
  - intros _. unfold LimitMiddleware. rewrite Hc, Hd. reflexivity.
Qed.

Lemma serve_frame_unchecked token evs : forall st,
  wf st ->
  Forall (fun e => reaches_check_as token (snd e) = false) evs ->
  limiterOf token (serve evs st) = limiterOf token st.
Proof.
  induction evs as [| [now r] evs IH]; intros st Hwf Hev; [reflexivity |].
  inversion Hev as [| ? ? Hr Hrest]; subst. cbn [serve].
  rewrite IH by (try apply LimitMiddleware_wf; assumption).
  apply LimitMiddleware_frame_unchecked; assumption.
Qed.

(** On a well-formed store, a token without a limiter is a token without
    an entry. *)
Lemma limiterOf_None token st :
  wf st -> limiterOf token st = None -> limiters (rl st) !! token = None.
Proof.
  intros [Hin _]. unfold limiterOf.
  destruct (limiters (rl st) !! token) as [p |] eqn:Hp; [| reflexivity].
  destruct (lookup_lt_is_Some_2 (heap st) p (Hin _ _ Hp)) as [lim Hlim].
  rewrite Hlim. discriminate.
Qed.

End AfterFlush.

(** C5.  After a flush, whatever the store was, every identity gets a new
    limiter with the full burst at its own next [GetLimiter] call,
    whatever requests were served in between: those of the other
    identities, which may have spent their bursts since the flush, and
    those rejected before the check; none of them reached the check
    under the token.  The limiter is allocated by that very call, at an
    address that held nothing before, and, the rate being positive and
    the burst at least one, its first [Allow] succeeds at any time; so a
    request of the identity whose body decodes is forwarded. *)
Theorem flush_restores_full_burst st evs token now :
  0 < rate (rl st) -> 1 <= burst (rl st) ->
  Forall (fun e => reaches_check_as token (snd e) = false) evs ->
  let st1 := serve evs (Flusher_tick st) in
  let p := fst (GetLimiter token st1) in
  let st2 := snd (GetLimiter token st1) in
  heap st2 !! p = Some (xrate.NewLimiter (rate (rl st)) (burst (rl st))) /\
  heap st1 !! p = None /\
  heap st !! p = None /\
  (exists st3, Allow p now st2 = Some (true, st3)) /\
  (forall w r c n m,
     http.Request_Cookie r "remember_token" = Some c -> http.Value c = token ->
     json.Decode (http.Body r) = (n, json.Decoded m None) ->
     exists st', LimitMiddleware now st1 w r
                 = (st', Forwarded w (http.set_Body (take n (http.Body r)) r))).
Proof.
  intros Hr Hb Hev st1 p st2.
  assert (Hwf1 : wf st1) by apply serve_wf, Flusher_tick_wf.
  destruct (serve_config evs (Flusher_tick st) (Flusher_tick_wf st)) as [Hrate Hburst].
  fold st1 in Hrate, Hburst. cbn [Flusher_tick rl rate burst] in Hrate, Hburst.
  assert (Hview : limiterOf token st1 = None).
  { unfold st1. rewrite serve_frame_unchecked by (try apply Flusher_tick_wf; assumption).
    unfold limiterOf. simpl. rewrite lookup_empty. reflexivity. }
  pose proof (limiterOf_None token st1 Hwf1 Hview) as Hnone.
  pose proof (GetLimiter_new token st1 Hnone) as Hnew.
  assert (Hlen : (length (heap st) <= length (heap st1))%nat).
  { apply (epoch_above (length (heap st)) (Flusher_tick st) st1 (serve_epoch evs _)).
    split; [reflexivity |]. simpl. intros t q Hq. rewrite lookup_empty in Hq. discriminate. }
  assert (Hcell : heap st2 !! p
                  = Some (xrate.NewLimiter (rate (rl st)) (burst (rl st)))).
  { unfold p, st2. rewrite Hnew, Hrate, Hburst. cbn [fst snd heap].
    apply list_lookup_middle. reflexivity. }
  assert (Hbucket : bucketOf token st1 = xrate.NewLimiter (rate (rl st)) (burst (rl st))).
  { unfold bucketOf. rewrite Hview, Hrate, Hburst. reflexivity. }
  split; [exact Hcell |].
  split; [unfold p; rewrite Hnew; cbn [fst]; apply lookup_ge_None_2; lia |].
  split; [unfold p; rewrite Hnew; cbn [fst]; apply lookup_ge_None_2; lia |].
  split.
  - rewrite (Allow_some p now st2 _ Hcell), Allow_NewLimiter by assumption.
    eexists. reflexivity.
  - intros w r c n m Hc Hv Hd.
    destruct (LimitMiddleware_checked now st1 w r c n m Hwf1 Hc Hd) as (st' & Heq & _).
    rewrite Hv, Hbucket, Allow_NewLimiter in Heq by assumption.
    exists st'. assumption.
Qed.

Lemma flush_restores_full_burst_witness :
  limiterOf "abc" exhausted_store
  = Some {| xrate.limit := 60000000000; xrate.burst := 15;
            xrate.tokens := 0; xrate.last := 1000 |} /\
  limiterOf "xyz"
    (serve (repeat (1000, request token_xyz (body_max_age "0")) 16
            ++ [(1000, request token_abc EmptyString)])
       (Flusher_tick exhausted_store))
  = Some {| xrate.limit := 60000000000; xrate.burst := 15;
            xrate.tokens := 0; xrate.last := 1000 |} /\
  exists st3,
    Allow
      (fst (GetLimiter "abc"
              (serve (repeat (1000, request token_xyz (body_max_age "0")) 16
                      ++ [(1000, request token_abc EmptyString)])
                 (Flusher_tick exhausted_store))))
      1000
      (snd (GetLimiter "abc"
              (serve (repeat (1000, request token_xyz (body_max_age "0")) 16
                      ++ [(1000, request token_abc EmptyString)])
                 (Flusher_tick exhausted_store))))
    = Some (true, st3).
Proof.
  split; [vm_compute; reflexivity |].
  split; [vm_compute; reflexivity |].
  assert (Hr : 0 < rate (rl exhausted_store)) by (vm_compute; reflexivity).
  assert (Hb : 1 <= burst (rl exhausted_store)) by (vm_compute; discriminate).
  assert (Hev : Forall (fun e => reaches_check_as "abc" (snd e) = false)
                  (repeat (1000, request token_xyz (body_max_age "0")) 16
                   ++ [(1000, request token_abc EmptyString)])).
  { apply Forall_app. split.
    - apply List.Forall_forall. intros e He. apply repeat_spec in He. subst e.
      vm_compute. reflexivity.
    - constructor; [vm_compute; reflexivity | constructor]. }
  exact (proj1 (proj2 (proj2 (proj2
           (flush_restores_full_burst exhausted_store _ "abc" 1000 Hr Hb Hev))))).
Defined.
